(** * flask_rest_jsonapi.querystring: the query-string manager

    A shallow embedding of [src/flask_rest_jsonapi/querystring.py] and the
    properties of its accessors.

    Conventions of the embedding.
    - A Python [str] is a [string]; the development covers ASCII text (one
      [ascii] per code point).
    - A Python [dict] is an association list in insertion order: the order
      decides which error is raised first and the order of the filters, so
      it is kept.  [Dict.set] is [dict.update] with one key.
    - A property that raises is a function into [result]; the exceptions
      are the constructors of [exn].
    - [current_app.config] is the record [config]. *)

From Stdlib Require Import String Ascii List ZArith Lia Bool Arith.
From Stdlib Require Import DecimalString.
Import ListNotations.

Local Open Scope list_scope.
Local Open Scope string_scope.

(* ================================================================== *)
(** ** Python built-ins used by the module *)

Module Py.

(** [s.startswith(prefix)] *)
Definition startswith (s prefix : string) : bool := String.prefix prefix s.

(** [s.startswith(prefixes)] with a tuple of prefixes *)
Definition startswith_any (s : string) (prefixes : list string) : bool :=
  existsb (startswith s) prefixes.

(** [s.index(c)] for a one-character [c]; [None] is the [ValueError]. *)
Fixpoint index (c : ascii) (s : string) : option nat :=
  match s with
  | EmptyString => None
  | String d s' =>
      if Ascii.eqb d c then Some 0
      else match index c s' with
           | Some i => Some (S i)
           | None => None
           end
  end.

(** [s[start:stop]] for non-negative bounds *)
Definition slice (start stop : nat) (s : string) : string :=
  substring start (stop - start) s.

(** [c in s] for a one-character [c] *)
Fixpoint contains (c : ascii) (s : string) : bool :=
  match s with
  | EmptyString => false
  | String d s' => Ascii.eqb d c || contains c s'
  end.

(** [s.split(sep)] for a one-character separator *)
Fixpoint split (sep : ascii) (s : string) : list string :=
  match s with
  | EmptyString => [EmptyString]
  | String d s' =>
      if Ascii.eqb d sep then EmptyString :: split sep s'
      else match split sep s' with
           | [] => [String d EmptyString]
           | w :: ws => String d w :: ws
           end
  end.

Fixpoint lstrip (c : ascii) (s : string) : string :=
  match s with
  | EmptyString => EmptyString
  | String d s' => if Ascii.eqb d c then lstrip c s' else s
  end.

Fixpoint rstrip (c : ascii) (s : string) : string :=
  match s with
  | EmptyString => EmptyString
  | String d s' =>
      match rstrip c s' with
      | EmptyString => if Ascii.eqb d c then EmptyString else String d EmptyString
      | r => String d r
      end
  end.

(** [s.strip(c)] for a one-character [c] *)
Definition strip (c : ascii) (s : string) : string := rstrip c (lstrip c s).

(** The characters of a string, as iterating over a [str] yields them. *)
Fixpoint chars (s : string) : list string :=
  match s with
  | EmptyString => []
  | String d s' => String d EmptyString :: chars s'
  end.

(** [str(n)] / ["{}".format(n)] for an integer *)
Definition str_of_int (n : Z) : string := NilZero.string_of_int (Z.to_int n).

(** *** [int(s)] for a string, base 10

    Leading and trailing whitespace is dropped, then an optional sign, then
    decimal digits in which single underscores may separate digits.  The
    whitespace of the conversion is the one of the C locale: the codes 9
    to 13 and the space (the separators 28 to 31, which [str.isspace]
    accepts, are not dropped).  A text with more digits than
    [sys.get_int_max_str_digits()], 4300 unless configured, is refused.
    [None] is the [ValueError]. *)

Definition isspace (c : ascii) : bool :=
  let n := nat_of_ascii c in
  (Nat.leb 9 n && Nat.leb n 13) || Nat.eqb n 32.

Definition digit_val (c : ascii) : option Z :=
  let n := nat_of_ascii c in
  if Nat.leb 48 n && Nat.leb n 57 then Some (Z.of_nat (n - 48)) else None.

(** the default of [sys.get_int_max_str_digits()] *)
Definition int_max_str_digits : Z := 4300.

(** the number of digits of a text of digits and underscores *)
Fixpoint count_digits (s : string) : Z :=
  match s with
  | EmptyString => 0
  | String c s' =>
      match digit_val c with
      | Some _ => 1 + count_digits s'
      | None => count_digits s'
      end
  end.

(** digits after the first one: [acc] is the value so far, [und] says that
    the previous character was an underscore. *)
Fixpoint int_digits (s : string) (acc : Z) (und : bool) : option Z :=
  match s with
  | EmptyString => if und then None else Some acc
  | String c s' =>
      if Ascii.eqb c "_" then
        if und then None else int_digits s' acc true
      else match digit_val c with
           | Some d => int_digits s' (10 * acc + d)%Z false
           | None => None
           end
  end.

Definition int_unsigned (s : string) : option Z :=
  match s with
  | EmptyString => None
  | String c s' =>
      match digit_val c with
      | Some d =>
          match int_digits s' d false with
          | Some n =>
              if Z.ltb int_max_str_digits (count_digits s) then None else Some n
          | None => None
          end
      | None => None
      end
  end.

Fixpoint lstrip_space (s : string) : string :=
  match s with
  | EmptyString => EmptyString
  | String d s' => if isspace d then lstrip_space s' else s
  end.

Fixpoint rstrip_space (s : string) : string :=
  match s with
  | EmptyString => EmptyString
  | String d s' =>
      match rstrip_space s' with
      | EmptyString => if isspace d then EmptyString else String d EmptyString
      | r => String d r
      end
  end.

Definition int (s : string) : option Z :=
  match rstrip_space (lstrip_space s) with
  | String "-" s' => option_map Z.opp (int_unsigned s')
  | String "+" s' => int_unsigned s'
  | s' => int_unsigned s'
  end.

End Py.

(* ================================================================== *)
(** ** Exceptions and results *)

(** The exceptions of [flask_rest_jsonapi.exceptions] that the module
    raises, with the message and, for [BadRequest], the
    [source={'parameter': ...}] it is built with; [TypeError],
    [ValueError], [KeyError], [AttributeError] and [RecursionError] are
    Python's own; [Exception] is what a
    collaborator raises. *)
Inductive exn : Type :=
| BadRequest (detail : string) (parameter : string)
| InvalidFilters (detail : string)
| InvalidSort (detail : string)
| InvalidField (detail : string)
| InvalidInclude (detail : string)
| TypeError
| ValueError
| KeyError (key : string)
| AttributeError
| RecursionError
| Exception (detail : string).

Inductive result (A : Type) : Type :=
| Ok (a : A)
| Raise (e : exn).

Arguments Ok {A} a.
Arguments Raise {A} e.

Definition bind {A B : Type} (r : result A) (k : A -> result B) : result B :=
  match r with
  | Ok a => k a
  | Raise e => Raise e
  end.

Notation "x <- r ;; k" := (bind r (fun x => k))
  (at level 61, r at next level, right associativity).

(* ================================================================== *)
(** ** Dictionaries in insertion order *)

Module Dict.

Definition t (V : Type) : Type := list (string * V).

Fixpoint get {V} (k : string) (d : t V) : option V :=
  match d with
  | [] => None
  | (k', v) :: d' => if String.eqb k' k then Some v else get k d'
  end.

Definition mem {V} (k : string) (d : t V) : bool :=
  match get k d with Some _ => true | None => false end.

(** [d.update({k: v})]: a present key keeps its place and takes the new
    value, a new key goes last. *)
Fixpoint set {V} (k : string) (v : V) (d : t V) : t V :=
  match d with
  | [] => [(k, v)]
  | (k', v') :: d' =>
      if String.eqb k' k then (k', v) :: d' else (k', v') :: set k v d'
  end.

Definition keys {V} (d : t V) : list string := map fst d.

(** truth value of a dict *)
Definition nonempty {V} (d : t V) : bool :=
  match d with [] => false | _ :: _ => true end.

(** a list of pairs is a dict when no key occurs twice *)
Definition wf {V} (d : t V) : Prop := NoDup (keys d).

End Dict.

(* ================================================================== *)
(** ** Decoded JSON and the configuration *)

(** The value of a bracket parameter after extraction: the raw string, or
    the list it was split into. *)
Inductive qvalue : Type :=
| Scalar (s : string)
| Multi (l : list string).


(** The Python values [json.loads] produces and the filters accessor
    returns. A float keeps its lexeme. *)
#[warnings="-register-all"]
Inductive pyval : Type :=
| PNone
| PBool (b : bool)
| PInt (n : Z)
| PFloat (lexeme : string)
| PStr (s : string)
| PList (l : list pyval)
| PDict (d : list (string * pyval)).

(** What iterating over a value yields, as [list.extend] does; [None] is
    the [TypeError] of a value that is not iterable. *)
Definition py_iter (v : pyval) : option (list pyval) :=
  match v with
  | PList l => Some l
  | PDict d => Some (map (fun kv => PStr (fst kv)) d)
  | PStr s => Some (map PStr (Py.chars s))
  | PNone | PBool _ | PInt _ | PFloat _ => None
  end.

Definition pyval_of_qvalue (v : qvalue) : pyval :=
  match v with
  | Scalar s => PStr s
  | Multi l => PList (map PStr l)
  end.

(** [current_app.config]: [None] is an absent key (or the value [None]). *)
Record config : Type := {
  ALLOW_DISABLE_PAGINATION : option bool;
  MAX_PAGE_SIZE : option Z;
  MAX_INCLUDE_DEPTH : option Z
}.

(** [int(value)] on an extracted value: a list is a [TypeError], a string
    that is no integer a [ValueError]. *)
Definition int_qvalue (v : qvalue) : result Z :=
  match v with
  | Scalar s =>
      match Py.int s with
      | Some n => Ok n
      | None => Raise ValueError
      end
  | Multi _ => Raise TypeError
  end.

(** What iterating over an extracted value yields. *)
Definition iter_qvalue (v : qvalue) : list string :=
  match v with
  | Scalar s => Py.chars s
  | Multi l => l
  end.

(* ================================================================== *)
(** ** Schema introspection *)

(** Modelled from the spec: [flask_rest_jsonapi.schema] and the marshmallow
    schema classes are not part of the sources.  Section 6 of the
    specification gives the contract: a schema descriptor exposes its
    declared field names, which of them are relationships, the cardinality
    of a relationship, the model-level field of a schema field and the
    related schema of a relationship.  A related schema is named by its
    index in a registry of schema classes, which allows cycles. *)
Inductive field : Type :=
| Attribute (attribute : option string)
| Relationship (attribute : option string) (many : bool) (related : nat).

(** Modelled from the spec: a schema class, with its name (used in the
    messages) and its declared fields. *)
Record schema : Type := {
  __name__ : string;
  _declared_fields : Dict.t field
}.

Definition is_relationship (f : field) : bool :=
  match f with
  | Relationship _ _ _ => true
  | Attribute _ => false
  end.

Definition field_attribute (f : field) : option string :=
  match f with
  | Attribute a => a
  | Relationship a _ _ => a
  end.

(** Modelled from the spec: the declared fields that are relationships. *)
Definition get_relationships (sch : schema) : list string :=
  Dict.keys (filter (fun kv => is_relationship (snd kv)) (_declared_fields sch)).

(** Modelled from the spec: the model-level field of a schema field; it
    raises on a field that is not declared. *)
Definition get_model_field (sch : schema) (name : string) : result string :=
  match Dict.get name (_declared_fields sch) with
  | None => Raise (Exception (__name__ sch ++ " has no attribute " ++ name))
  | Some f =>
      match field_attribute f with
      | Some a => Ok a
      | None => Ok name
      end
  end.

(** [x in l] for a list of strings *)
Definition str_in (x : string) (l : list string) : bool :=
  existsb (String.eqb x) l.

(* ================================================================== *)
(** ** Regular expressions, as [re.match] runs them *)

Module Re.

(** The fragment of the pattern language that the sort pattern uses.
    [Opt], [Star] and [Plus] are the greedy [?], [*] and [+];
    [Group n] is the n-th capturing group. *)
Inductive regex : Type :=
| Lit (c : ascii)
| Class (p : ascii -> bool)
| Seq (r1 r2 : regex)
| Alt (r1 r2 : regex)
| Opt (r : regex)
| Star (r : regex)
| Group (n : nat) (r : regex).

Definition Plus (r : regex) : regex := Seq r (Star r).

(** the literal text [s] *)
Fixpoint Str (c : ascii) (s : string) : regex :=
  match s with
  | EmptyString => Lit c
  | String d s' => Seq (Lit c) (Str d s')
  end.

(** The groups matched so far, the latest first. *)
Definition captures : Type := list (nat * list ascii).

Definition orelse {A} (x y : option A) : option A :=
  match x with
  | Some a => Some a
  | None => y
  end.

(** Backtracking search in continuation-passing style: [exec r s caps k]
    matches [r] at the head of [s] and hands the rest of the input to [k];
    when [k] fails the next alternative of [r] is tried, the greedy one
    first.  An iteration of [Star] has to consume input, so the length of
    the input bounds the number of iterations. *)
Fixpoint exec (r : regex) (s : list ascii) (caps : captures)
    (k : list ascii -> captures -> option captures) {struct r} : option captures :=
  match r with
  | Lit c =>
      match s with
      | d :: s' => if Ascii.eqb d c then k s' caps else None
      | [] => None
      end
  | Class p =>
      match s with
      | d :: s' => if p d then k s' caps else None
      | [] => None
      end
  | Seq r1 r2 => exec r1 s caps (fun s' caps' => exec r2 s' caps' k)
  | Alt r1 r2 => orelse (exec r1 s caps k) (exec r2 s caps k)
  | Opt r1 => orelse (exec r1 s caps k) (k s caps)
  | Star r1 =>
      (fix loop (fuel : nat) (s : list ascii) (caps : captures) {struct fuel}
         : option captures :=
         match fuel with
         | O => k s caps
         | S fuel' =>
             orelse
               (exec r1 s caps
                  (fun s' caps' =>
                     if Nat.ltb (length s') (length s) then loop fuel' s' caps'
                     else None))
               (k s caps)
         end) (length s) s caps
  | Group n r1 =>
      exec r1 s caps
        (fun s' caps' => k s' ((n, firstn (length s - length s') s) :: caps'))
  end.

(** [m.group(n)]: [None] for a group that took no part in the match. *)
Fixpoint group (n : nat) (caps : captures) : option string :=
  match caps with
  | [] => None
  | (m, text) :: caps' =>
      if Nat.eqb m n then Some (string_of_list_ascii text) else group n caps'
  end.

(** [re.compile(r).match(s)]: a match at the start of [s]; what follows
    the match is not looked at. *)
Definition match_ (r : regex) (s : string) : option captures :=
  exec r (list_ascii_of_string s) [] (fun _ caps => Some caps).

(** [\w] on ASCII text *)
Definition word (c : ascii) : bool :=
  let n := nat_of_ascii c in
  (Nat.leb 48 n && Nat.leb n 57) || (Nat.leb 65 n && Nat.leb n 90)
  || (Nat.leb 97 n && Nat.leb n 122) || Nat.eqb n 95.

End Re.

(** The pattern that [sorting] compiles, piece by piece:
    group 1 is an optional minus sign; then, optionally and outside any
    group, an opening bracket, group 2 (the text nullsfirst or the text
    nullslast) and a closing bracket; group 3 is any number of repetitions
    of one or more word characters followed by a dot; group 4 is one or
    more word characters. *)
Definition pattern : Re.regex :=
  Re.Seq (Re.Group 1 (Re.Opt (Re.Lit "-")))
    (Re.Seq
       (Re.Opt (Re.Seq (Re.Lit "[")
                  (Re.Seq (Re.Group 2 (Re.Alt (Re.Str "n" "ullsfirst") (Re.Str "n" "ullslast")))
                     (Re.Lit "]"))))
       (Re.Seq (Re.Group 3 (Re.Star (Re.Seq (Re.Plus (Re.Class Re.word)) (Re.Lit "."))))
          (Re.Group 4 (Re.Plus (Re.Class Re.word))))).

(** [match.groups()] of the sort pattern: groups 1, 3 and 4 take part in
    every match, group 2 is [None] when the optional part is skipped. *)
Definition groups (caps : Re.captures) : string * option string * string * string :=
  (match Re.group 1 caps with Some s => s | None => "" end,
   Re.group 2 caps,
   match Re.group 3 caps with Some s => s | None => "" end,
   match Re.group 4 caps with Some s => s | None => "" end).

Definition pattern_match (sort_field : string)
  : option (string * option string * string * string) :=
  option_map groups (Re.match_ pattern sort_field).

(** An entry of the list [sorting] returns. *)
Record sort_item : Type := {
  sort_field_ : string;
  sort_order : string;
  sort_nulls : option string;
  sort_joins : list string
}.

(* ================================================================== *)
(** ** The query-string manager: bracket-group extraction *)

Section QueryStringManager.

(** [self.qs]: the raw parameter mapping *)
Variable qs : Dict.t string.

Definition MANAGED_KEYS : list string :=
  ["filter"; "page"; "fields"; "sort"; "include"; "q"].

(** [item_value] of [_get_key_values] *)
Definition item_value (value : string) : qvalue :=
  if Py.contains "," value then Multi (Py.split "," value) else Scalar value.

(** the body of the loop of [_get_key_values] after the prefix test:
    [None] is an exception inside the [try], which the [except] turns into
    [BadRequest]. *)
Definition item_key (key : string) : option string :=
  match Py.index "[" key with
  | None => None
  | Some i =>
      match Py.index "]" key with
      | None => None
      | Some key_end => Some (Py.slice (i + 1) key_end key)
      end
  end.

Fixpoint get_key_values_from (name : string) (items : Dict.t string)
    (results : Dict.t qvalue) : result (Dict.t qvalue) :=
  match items with
  | [] => Ok results
  | (key, value) :: items' =>
      if negb (Py.startswith key name) then
        get_key_values_from name items' results
      else
        match item_key key with
        | None => Raise (BadRequest "Parse error" key)
        | Some k =>
            get_key_values_from name items' (Dict.set k (item_value value) results)
        end
  end.

Definition _get_key_values (name : string) : result (Dict.t qvalue) :=
  get_key_values_from name qs [].


(** [current_app.config] *)
Variable cfg : config.

(** [self.schema] *)
Variable self_schema : schema.

(** The registry of schema classes that relationships point into. *)
Variable registry : nat -> schema.

(** [get_schema_from_type] looks the resource type up in marshmallow's
    class registry; it returns a schema or raises. *)
Variable get_schema_from_type : string -> result schema.

(** [json.loads] on a string: it returns the decoded value or raises, a
    [ValueError] (which [JSONDecodeError] is) on a text that does not
    decode, a [RecursionError] on a text nested too deep. *)
Variable json_loads : string -> result pyval.

(** *** [_simple_filters] *)

Definition _simple_filters (dict_ : Dict.t qvalue) : list pyval :=
  map (fun kv =>
         PDict [("name", PStr (fst kv)); ("op", PStr "eq");
                ("val", pyval_of_qvalue (snd kv))])
      dict_.

(** *** [querystring] *)

(** The dict comprehension over [self.qs.items()]; the keys of a dict are
    distinct, so the entries kept are consed in order. *)
Fixpoint querystring_from (items : Dict.t string) : result (Dict.t string) :=
  match items with
  | [] => Ok []
  | (key, value) :: items' =>
      keep <- (if Py.startswith_any key MANAGED_KEYS then Ok true
               else (r <- _get_key_values "filter[" ;; Ok (Dict.nonempty r))) ;;
      rest <- querystring_from items' ;;
      Ok (if keep then (key, value) :: rest else rest)
  end.

Definition querystring : result (Dict.t string) := querystring_from qs.

(** *** [filters] *)

Definition filters : result (list pyval) :=
  results <- match Dict.get "filter" qs with
             | None => Ok []
             | Some filters_ =>
                 match json_loads filters_ with
                 | Raise ValueError => Raise (InvalidFilters "Parse error")
                 | Raise TypeError => Raise (InvalidFilters "Parse error")
                 | Raise e => Raise e
                 | Ok decoded =>
                     match py_iter decoded with
                     | None => Raise (InvalidFilters "Parse error")
                     | Some l => Ok l
                     end
                 end
             end ;;
  kv <- _get_key_values "filter[" ;;
  if Dict.nonempty kv then
    kv' <- _get_key_values "filter[" ;;
    Ok (results ++ _simple_filters kv')%list
  else Ok results.

(** *** [pagination] *)

(** the loop that checks the type of the values *)
Fixpoint check_page (items : Dict.t qvalue) : result unit :=
  match items with
  | [] => Ok tt
  | (key, value) :: items' =>
      if negb (str_in key ["number"; "size"]) then
        Raise (BadRequest (key ++ " is not a valid parameter of pagination") "page")
      else
        match int_qvalue value with
        | Raise ValueError => Raise (BadRequest "Parse error" ("page[" ++ key ++ "]"))
        | Raise e => Raise e
        | Ok _ => check_page items'
        end
  end.

Definition pagination : result (Dict.t qvalue) :=
  result_ <- _get_key_values "page" ;;
  _ <- check_page result_ ;;
  disabled <- match ALLOW_DISABLE_PAGINATION cfg with
              | Some false =>
                  size <- match Dict.get "size" result_ with
                          | Some v => int_qvalue v
                          | None => Ok 1%Z
                          end ;;
                  Ok (Z.eqb size 0)
              | _ => Ok false
              end ;;
  if disabled then
    Raise (BadRequest "You are not allowed to disable pagination" "page[size]")
  else
    match MAX_PAGE_SIZE cfg, Dict.get "size" result_ with
    | Some max, Some v =>
        size <- int_qvalue v ;;
        if Z.gtb size max then
          Raise (BadRequest ("Maximum page size is " ++ Py.str_of_int max) "page[size]")
        else Ok result_
    | _, _ => Ok result_
    end.

(** *** [fields] *)

(** the first loop: [result[key] = [value]] for a value that is no list *)
Fixpoint listify (items : Dict.t qvalue) (result_ : Dict.t qvalue) : Dict.t qvalue :=
  match items with
  | [] => result_
  | (key, value) :: items' =>
      listify items'
        match value with
        | Multi _ => result_
        | Scalar s => Dict.set key (Multi [s]) result_
        end
  end.

Fixpoint check_declared (sch : schema) (value : list string) : result unit :=
  match value with
  | [] => Ok tt
  | obj :: value' =>
      if negb (Dict.mem obj (_declared_fields sch)) then
        Raise (InvalidField (__name__ sch ++ " has no attribute " ++ obj))
      else check_declared sch value'
  end.

(** the second loop *)
Fixpoint check_fields (items : Dict.t qvalue) : result unit :=
  match items with
  | [] => Ok tt
  | (key, value) :: items' =>
      sch <- get_schema_from_type key ;;
      _ <- check_declared sch (iter_qvalue value) ;;
      check_fields items'
  end.

Definition fields : result (Dict.t qvalue) :=
  result_ <- _get_key_values "fields" ;;
  let result_ := listify result_ result_ in
  _ <- check_fields result_ ;;
  Ok result_.

(** *** [sorting] *)

(** Modelled from the spec: the related schema of a relationship field. *)
Definition get_related_schema (sch : schema) (name : string) : result schema :=
  match Dict.get name (_declared_fields sch) with
  | None => Raise (KeyError name)
  | Some (Attribute _) => Raise AttributeError
  | Some (Relationship _ _ related) => Ok (registry related)
  end.

(** the loop over [schema_joins] *)
Fixpoint walk_joins (schema_joins : list string) (cur_sch : schema)
    (model_joins : list string) : result (schema * list string) :=
  match schema_joins with
  | [] => Ok (cur_sch, model_joins)
  | join :: schema_joins' =>
      if negb (str_in join (get_relationships cur_sch)) then
        Raise (InvalidSort (__name__ cur_sch ++ " has no relationship " ++ join))
      else
        match Dict.get join (_declared_fields cur_sch) with
        | None => Raise (KeyError join)
        | Some (Attribute _) => Raise AttributeError
        | Some (Relationship _ many _) =>
            if many then
              Raise (InvalidSort ("Cannot do X->many join from " ++ __name__ cur_sch
                                    ++ " to " ++ join))
            else
              model_join <- get_model_field cur_sch join ;;
              related <- get_related_schema cur_sch join ;;
              walk_joins schema_joins' related (model_joins ++ [model_join])%list
        end
  end.

(** lines 193 to 211, for the groups of one match *)
Definition resolve_sort (g : string * option string * string * string)
  : result sort_item :=
  let '(minus, nulls, join_path, schema_field) := g in
  let order := if String.eqb minus "" then "asc" else "desc" in
  let schema_joins :=
    if String.eqb join_path "" then [] else Py.split "." (Py.strip "." join_path) in
  walked <- walk_joins schema_joins self_schema [] ;;
  let '(cur_sch, model_joins) := walked in
  if negb (Dict.mem schema_field (_declared_fields cur_sch)) then
    Raise (InvalidSort (__name__ cur_sch ++ " has no attribute " ++ schema_field))
  else if str_in schema_field (get_relationships cur_sch) then
    Raise (InvalidSort ("You can't sort on " ++ schema_field
                          ++ " because it is a relationship field"))
  else
    model_field <- get_model_field cur_sch schema_field ;;
    Ok {| sort_field_ := model_field; sort_order := order;
          sort_nulls := nulls; sort_joins := model_joins |}.

(** one turn of the loop over the segments; the message of the first
    error is not an f-string, it is the text written here *)
Definition sort_segment (sort_field : string) : result sort_item :=
  match pattern_match sort_field with
  | None => Raise (InvalidSort "Invalid sort field format {sort_field}")
  | Some g => resolve_sort g
  end.

Fixpoint sorting_from (sort_fields : list string) (sorting_results : list sort_item)
  : result (list sort_item) :=
  match sort_fields with
  | [] => Ok sorting_results
  | sort_field :: sort_fields' =>
      item <- sort_segment sort_field ;;
      sorting_from sort_fields' (sorting_results ++ [item])%list
  end.

Definition sorting : result (list sort_item) :=
  match Dict.get "sort" qs with
  | None => Ok []
  | Some "" => Ok []
  | Some sort => sorting_from (Py.split "," sort) []
  end.

(** *** [include] *)

(** the loop over [include_param]; with a parameter that is a string the
    loop variable is one character of it *)
Fixpoint check_include (max : Z) (include_param : list string) : result unit :=
  match include_param with
  | [] => Ok tt
  | include_path :: rest =>
      if Z.gtb (Z.of_nat (length (Py.split "." include_path))) max then
        Raise (InvalidInclude ("You can't use include through more than "
                                 ++ Py.str_of_int max ++ " relationships"))
      else check_include max rest
  end.

Definition include : result (list string) :=
  let include_param := Dict.get "include" qs in
  _ <- match MAX_INCLUDE_DEPTH cfg with
       | None => Ok tt
       | Some max =>
           check_include max
             match include_param with
             | Some s => Py.chars s
             | None => []
             end
       end ;;
  Ok match include_param with
     | Some s => if String.eqb s "" then [] else Py.split "," s
     | None => []
     end.

End QueryStringManager.

(* ================================================================== *)
(** ** Vocabulary of the statements *)

(** the raw key [name[key]] *)
Definition bracket (name key : string) : string := name ++ "[" ++ key ++ "]".

(** a key that the extraction under [prefix] looks at and that lacks an
    opening or a closing bracket *)
Definition offending (prefix : string) (kv : string * string) : bool :=
  Py.startswith (fst kv) prefix
  && (negb (Py.contains "[" (fst kv)) || negb (Py.contains "]" (fst kv))).

Definition is_BadRequest (e : exn) : Prop :=
  exists detail parameter, e = BadRequest detail parameter.

(** a configuration with no key set *)
Definition default_config : config :=
  {| ALLOW_DISABLE_PAGINATION := None; MAX_PAGE_SIZE := None;
     MAX_INCLUDE_DEPTH := None |}.

(** *** Filters *)

(** the conditions that the [filter] parameter contributes: none when it
    is absent, the elements of the list it decodes to otherwise *)
Definition json_conditions (json_loads : string -> result pyval)
    (qs : Dict.t string) (decoded : list pyval) : Prop :=
  match Dict.get "filter" qs with
  | None => decoded = []
  | Some raw => json_loads raw = Ok (PList decoded)
  end.

(** [filter_groups qs params]: the keys of [qs] under the prefix
    [filter[] are, in order, the keys [filter[name]] for the pairs
    [(name, value)] of [params], and no [name] holds a closing bracket. *)
Inductive filter_groups : Dict.t string -> list (string * string) -> Prop :=
| fg_nil : filter_groups [] []
| fg_other key value qs params :
    Py.startswith key "filter[" = false ->
    filter_groups qs params ->
    filter_groups ((key, value) :: qs) params
| fg_group name value qs params :
    Py.contains "]" name = false ->
    filter_groups qs params ->
    filter_groups ((bracket "filter" name, value) :: qs) ((name, value) :: params).

(** the condition [{name: <name>, op: eq, val: <value>}] of a bracket
    parameter; the value is the list of its parts when it holds a comma *)
Definition equality_condition (p : string * string) : pyval :=
  PDict [("name", PStr (fst p)); ("op", PStr "eq");
         ("val", if Py.contains "," (snd p)
                 then PList (map PStr (Py.split "," (snd p)))
                 else PStr (snd p))].

(** the double quote, and a text between double quotes *)
Definition dquote : ascii := "034"%char.

Definition quoted (s : string) : string :=
  String dquote (s ++ String dquote EmptyString).

(** the JSON text of one condition on [age] *)
Definition age_filter_text : string :=
  "[{" ++ quoted "name" ++ ":" ++ quoted "age" ++ "," ++ quoted "op" ++ ":"
  ++ quoted "eq" ++ "," ++ quoted "val" ++ ":30}]".

(** What [json.loads] returns on the texts of the examples; a text that
    is not listed is not looked at by any example and counts as a decode
    failure here. *)
Definition json_loads_examples (s : string) : result pyval :=
  if String.eqb s age_filter_text then
    Ok (PList [PDict [("name", PStr "age"); ("op", PStr "eq"); ("val", PInt 30)]])
  else if String.eqb s ("{" ++ quoted "a" ++ ":1," ++ quoted "b" ++ ":2}") then
    Ok (PDict [("a", PInt 1); ("b", PInt 2)])
  else if String.eqb s (quoted "ab") then Ok (PStr "ab")
  else if String.eqb s "7" then Ok (PInt 7)
  else if String.eqb s "null" then Ok PNone
  else if String.eqb s "true" then Ok (PBool true)
  else Raise ValueError.

(** *** Sparse fieldsets *)

(** the list of field names that a value stands for *)
Definition as_list (v : qvalue) : list string :=
  match v with
  | Scalar s => [s]
  | Multi l => l
  end.

(** the extracted dict with every value as a list *)
Definition normalized (kv : Dict.t qvalue) : Dict.t qvalue :=
  map (fun p => (fst p, Multi (as_list (snd p)))) kv.

(** *** Schemas of the examples *)

Definition person_schema : schema :=
  {| __name__ := "PersonSchema";
     _declared_fields :=
       [("id", Attribute None); ("name", Attribute None);
        ("email", Attribute (Some "email_address"));
        ("articles", Relationship None true 1)] |}.

Definition article_schema : schema :=
  {| __name__ := "ArticleSchema";
     _declared_fields :=
       [("id", Attribute None); ("title", Attribute None);
        ("created_at", Attribute None);
        ("author", Relationship (Some "writer") false 0);
        ("comments", Relationship None true 2)] |}.

Definition comment_schema : schema :=
  {| __name__ := "CommentSchema";
     _declared_fields :=
       [("id", Attribute None); ("body", Attribute None);
        ("article", Relationship None false 1)] |}.

Definition example_registry (n : nat) : schema :=
  match n with
  | 0 => person_schema
  | 1 => article_schema
  | _ => comment_schema
  end.

Definition example_schema_from_type (resource_type : string) : result schema :=
  if String.eqb resource_type "person" then Ok person_schema
  else if String.eqb resource_type "article" then Ok article_schema
  else Raise (Exception ("no schema for type " ++ resource_type)).

(** *** Sorting *)

Definition is_InvalidSort (e : exn) : Prop := exists detail, e = InvalidSort detail.

(** the model-level name of a declared field called [name] *)
Definition model_name (f : field) (name : string) : string :=
  match field_attribute f with
  | Some a => a
  | None => name
  end.

(** [to_one_path registry sch joins sch' model_joins]: from [sch], every
    component of [joins] names a declared to-one relationship of the schema
    reached so far; [sch'] is the schema reached at the end and
    [model_joins] the model-level names of the relationships, in order. *)
Inductive to_one_path (registry : nat -> schema)
  : schema -> list string -> schema -> list string -> Prop :=
| path_nil sch : to_one_path registry sch [] sch []
| path_cons sch join joins a related sch' model_joins :
    Dict.get join (_declared_fields sch) = Some (Relationship a false related) ->
    to_one_path registry (registry related) joins sch' model_joins ->
    to_one_path registry sch (join :: joins) sch'
      (model_name (Relationship a false related) join :: model_joins).

(** a component that cannot be followed from [sch]: it is not a declared
    relationship, or the relationship is to-many *)
Definition bad_join (sch : schema) (join : string) : Prop :=
  match Dict.get join (_declared_fields sch) with
  | Some (Relationship _ many _) => many = true
  | Some (Attribute _) => True
  | None => True
  end.

(** a final field that cannot be sorted on: it is not declared on [sch],
    or it is a relationship *)
Definition bad_field (sch : schema) (name : string) : Prop :=
  match Dict.get name (_declared_fields sch) with
  | Some (Attribute _) => False
  | Some (Relationship _ _ _) => True
  | None => True
  end.

(** the relationship path that group 3 of a match stands for *)
Definition schema_joins (join_path : string) : list string :=
  if String.eqb join_path "" then [] else Py.split "." (Py.strip "." join_path).

(** [sortable registry sch g item]: the groups [g] of a match resolve from
    [sch], and [item] is the entry they stand for. *)
Definition sortable (registry : nat -> schema) (sch : schema)
    (g : string * option string * string * string) (item : sort_item) : Prop :=
  let '(minus, nulls, join_path, schema_field) := g in
  exists sch' model_joins a,
    to_one_path registry sch (schema_joins join_path) sch' model_joins /\
    Dict.get schema_field (_declared_fields sch') = Some (Attribute a) /\
    item = {| sort_field_ := model_name (Attribute a) schema_field;
              sort_order := if String.eqb minus "" then "asc" else "desc";
              sort_nulls := nulls;
              sort_joins := model_joins |}.

(** *** Pagination *)

(** the size that a checked dict of page parameters resolves to: one when
    the sub-key is absent *)
Definition page_size (r : Dict.t qvalue) : Z :=
  match Dict.get "size" r with
  | Some (Scalar s) =>
      match Py.int s with
      | Some n => n
      | None => 1%Z
      end
  | Some (Multi _) => 1%Z
  | None => 1%Z
  end.

Definition disabling_disallowed (cfg : config) : bool :=
  match ALLOW_DISABLE_PAGINATION cfg with
  | Some false => true
  | Some true => false
  | None => false
  end.

(** *** Vocabulary of the further properties *)

(** [sep.join(l)] *)
Fixpoint join (sep : string) (l : list string) : string :=
  match l with
  | [] => ""
  | [x] => x
  | x :: l' => x ++ sep ++ join sep l'
  end.

(** the key is under one of the managed names *)
Definition managed (kv : string * string) : bool :=
  Py.startswith_any (fst kv) MANAGED_KEYS.

(** the key is under the prefix [name] *)
Definition under (name : string) (kv : string * string) : bool :=
  Py.startswith (fst kv) name.

(** the first requested field that the schema does not declare *)
Definition first_undeclared (sch : schema) (l : list string) : option string :=
  find (fun obj => negb (Dict.mem obj (_declared_fields sch))) l.

(** the message of the include accessor for the limit [max] *)
Definition include_message (max : Z) : string :=
  "You can't use include through more than " ++ Py.str_of_int max ++ " relationships".

(** what the depth check of the include accessor rejects under the limit
    [max]: every parameter that is not empty when the limit is below one,
    every parameter with a dot when the limit is below two *)
Definition include_rejected (max : Z) (s : string) : bool :=
  (negb (String.eqb s "") && Z.ltb max 1) || (Py.contains "." s && Z.ltb max 2).

(** *** The texts that a regular expression matches *)

(** [re_matches r w caps caps']: the expression [r] matches the text [w],
    and the groups recorded go from [caps] to [caps']. *)
Inductive re_matches : Re.regex -> list ascii -> Re.captures -> Re.captures -> Prop :=
| m_lit c caps : re_matches (Re.Lit c) [c] caps caps
| m_class (p : ascii -> bool) d caps :
    p d = true -> re_matches (Re.Class p) [d] caps caps
| m_seq r1 r2 w1 w2 c0 c1 c2 :
    re_matches r1 w1 c0 c1 -> re_matches r2 w2 c1 c2 ->
    re_matches (Re.Seq r1 r2) (w1 ++ w2) c0 c2
| m_alt_l r1 r2 w c0 c1 :
    re_matches r1 w c0 c1 -> re_matches (Re.Alt r1 r2) w c0 c1
| m_alt_r r1 r2 w c0 c1 :
    re_matches r2 w c0 c1 -> re_matches (Re.Alt r1 r2) w c0 c1
| m_opt_some r w c0 c1 :
    re_matches r w c0 c1 -> re_matches (Re.Opt r) w c0 c1
| m_opt_none r c0 : re_matches (Re.Opt r) [] c0 c0
| m_star_nil r c0 : re_matches (Re.Star r) [] c0 c0
| m_star_cons r w1 w2 c0 c1 c2 :
    re_matches r w1 c0 c1 -> w1 <> [] -> re_matches (Re.Star r) w2 c1 c2 ->
    re_matches (Re.Star r) (w1 ++ w2) c0 c2
| m_group n r w c0 c1 :
    re_matches r w c0 c1 -> re_matches (Re.Group n r) w c0 ((n, w) :: c1).

(** a text of one or more word characters *)
Definition word_string (s : string) : bool :=
  negb (String.eqb s "") && forallb Re.word (list_ascii_of_string s).

(** the words, each followed by a dot *)
Fixpoint dotted (ws : list string) : string :=
  match ws with
  | [] => ""
  | w :: ws' => w ++ "." ++ dotted ws'
  end.

(** the text of the nulls directive of a segment *)
Definition nulls_text (nulls : option string) : string :=
  match nulls with
  | Some n => "[" ++ n ++ "]"
  | None => ""
  end.

(** a text of [n] digits *)
Fixpoint digits_text (n : nat) : string :=
  match n with
  | O => ""
  | S n' => String "1" (digits_text n')
  end.

(* ================================================================== *)
(** ** Strings *)

Section Strings.

Lemma startswith_app (p s : string) : Py.startswith (p ++ s) p = true.
Proof.
  unfold Py.startswith.
  induction p as [|c p IH]; simpl.
  - destruct s; reflexivity.
  - destruct (ascii_dec c c) as [_|n]; [exact IH | contradiction].
Qed.

Lemma index_none_iff (c : ascii) (s : string) :
  Py.index c s = None <-> Py.contains c s = false.
Proof.
  induction s as [|d s IH]; simpl.
  - tauto.
  - destruct (Ascii.eqb d c); simpl.
    + split; discriminate.
    + destruct (Py.index c s).
      * split; [discriminate|]. intros H. apply IH in H. discriminate.
      * tauto.
Qed.

Lemma index_app (c : ascii) (p s : string) :
  Py.contains c p = false ->
  Py.index c (p ++ s) = option_map (Nat.add (String.length p)) (Py.index c s).
Proof.
  induction p as [|d p IH]; simpl; intros H.
  - destruct (Py.index c s); reflexivity.
  - apply orb_false_iff in H. destruct H as [Hd Hp].
    rewrite Hd, (IH Hp). destruct (Py.index c s); reflexivity.
Qed.

Lemma index_head (c : ascii) (s : string) : Py.index c (String c s) = Some 0.
Proof. simpl. now rewrite Ascii.eqb_refl. Qed.

Lemma contains_app (c : ascii) (p s : string) :
  Py.contains c (p ++ s) = Py.contains c p || Py.contains c s.
Proof.
  induction p as [|d p IH]; simpl; [reflexivity|].
  now rewrite IH, orb_assoc.
Qed.

Lemma substring_middle (p k s : string) :
  substring (String.length p) (String.length k) (p ++ k ++ s) = k.
Proof.
  induction p as [|d p IH]; simpl.
  - induction k as [|e k IHk]; simpl.
    + destruct s; reflexivity.
    + now rewrite IHk.
  - exact IH.
Qed.

(** the sub-key of [name[key]] is [key] when the brackets of the key are
    the first ones *)
Lemma item_key_bracket (name key : string) :
  Py.contains "[" name = false ->
  Py.contains "]" name = false ->
  Py.contains "]" key = false ->
  item_key (bracket name key) = Some key.
Proof.
  intros Hn1 Hn2 Hk. unfold item_key, bracket.
  rewrite (index_app _ _ _ Hn1). simpl Py.index at 1. simpl option_map.
  rewrite (index_app _ _ _ Hn2). simpl Py.index.
  rewrite (index_app _ _ _ Hk). simpl.
  f_equal. unfold Py.slice.
  replace (String.length name + S (String.length key + 0)
           - (String.length name + 0 + 1)) with (String.length key) by lia.
  replace (String.length name + 0 + 1) with (String.length (name ++ "[")).
  - change (name ++ String "[" (key ++ "]")) with (name ++ "[" ++ key ++ "]").
    replace (name ++ "[" ++ key ++ "]") with ((name ++ "[") ++ key ++ "]").
    + apply substring_middle.
    + clear. induction name as [|d n IH]; simpl; [reflexivity | now rewrite IH].
  - clear. induction name as [|d n IH]; simpl; [reflexivity | now rewrite IH].
Qed.

Lemma item_key_none_iff (key : string) :
  item_key key = None <->
  Py.contains "[" key = false \/ Py.contains "]" key = false.
Proof.
  unfold item_key.
  destruct (Py.index "[" key) eqn:E1.
  - destruct (Py.index "]" key) eqn:E2.
    + split; [discriminate|].
      intros [H|H]; apply index_none_iff in H; congruence.
    + split; [|reflexivity]. intros _. right. now apply index_none_iff.
  - split; [|reflexivity]. intros _. left. now apply index_none_iff.
Qed.

End Strings.

(* ================================================================== *)
(** ** Dictionaries *)

Section DictFacts.

Context {V : Type}.
Implicit Types (d : Dict.t V) (k : string) (v : V).

Lemma get_set_same k v d : Dict.get k (Dict.set k v d) = Some v.
Proof.
  induction d as [|[k' v'] d IH]; simpl.
  - now rewrite String.eqb_refl.
  - destruct (String.eqb k' k) eqn:E; simpl; rewrite E; [reflexivity | exact IH].
Qed.

Lemma get_set_other k k' v d :
  k <> k' -> Dict.get k' (Dict.set k v d) = Dict.get k' d.
Proof.
  intros Hne. induction d as [|[k0 v0] d IH]; simpl.
  - destruct (String.eqb k k') eqn:E; [|reflexivity].
    apply String.eqb_eq in E. contradiction.
  - destruct (String.eqb k0 k) eqn:E; simpl.
    + apply String.eqb_eq in E. subst k0.
      destruct (String.eqb k k') eqn:E'; [|reflexivity].
      apply String.eqb_eq in E'. contradiction.
    + now rewrite IH.
Qed.

Lemma mem_set_same k v d : Dict.mem k (Dict.set k v d) = true.
Proof. unfold Dict.mem. now rewrite get_set_same. Qed.

Lemma mem_set_mono k k' v d :
  Dict.mem k' d = true -> Dict.mem k' (Dict.set k v d) = true.
Proof.
  destruct (string_dec k k') as [->|Hne].
  - intros _. apply mem_set_same.
  - unfold Dict.mem. now rewrite get_set_other.
Qed.

Lemma get_none_notin k d : Dict.get k d = None <-> ~ In k (Dict.keys d).
Proof.
  induction d as [|[k' v'] d IH]; simpl.
  - tauto.
  - destruct (String.eqb k' k) eqn:E.
    + apply String.eqb_eq in E. subst. split; [discriminate | tauto].
    + apply String.eqb_neq in E. rewrite IH. tauto.
Qed.

Lemma get_some_in k v d : Dict.get k d = Some v -> In (k, v) d.
Proof.
  induction d as [|[k' v'] d IH]; simpl; [discriminate|].
  destruct (String.eqb k' k) eqn:E.
  - apply String.eqb_eq in E. intros [= <-]. subst. now left.
  - intros H. right. now apply IH.
Qed.

Lemma in_get_wf k v d : Dict.wf d -> In (k, v) d -> Dict.get k d = Some v.
Proof.
  unfold Dict.wf. induction d as [|[k' v'] d IH]; simpl; [tauto|].
  intros Hnd [Heq|Hin].
  - injection Heq as -> ->. now rewrite String.eqb_refl.
  - inversion Hnd as [|? ? Hnotin Hnd']; subst.
    destruct (String.eqb k' k) eqn:E.
    + apply String.eqb_eq in E. subst. exfalso. apply Hnotin.
      change k with (fst (k, v)). now apply in_map.
    + now apply IH.
Qed.

Lemma mem_true_in k d : Dict.mem k d = true <-> In k (Dict.keys d).
Proof.
  unfold Dict.mem. destruct (Dict.get k d) eqn:E.
  - split; [|reflexivity]. intros _. apply get_some_in in E.
    change k with (fst (k, v)). now apply in_map.
  - split; [discriminate|]. intros H. now apply get_none_notin in E.
Qed.

Lemma set_notin k v d :
  ~ In k (Dict.keys d) -> Dict.set k v d = (d ++ [(k, v)])%list.
Proof.
  induction d as [|[k' v'] d IH]; simpl; [reflexivity|].
  intros Hn. destruct (String.eqb k' k) eqn:E.
  - apply String.eqb_eq in E. tauto.
  - rewrite IH; tauto.
Qed.

Lemma set_mid k v v0 (d1 d2 : Dict.t V) :
  ~ In k (Dict.keys d1) ->
  Dict.set k v (d1 ++ (k, v0) :: d2)%list = (d1 ++ (k, v) :: d2)%list.
Proof.
  induction d1 as [|[k' v'] d1 IH]; simpl.
  - now rewrite String.eqb_refl.
  - intros Hn. destruct (String.eqb k' k) eqn:E.
    + apply String.eqb_eq in E. tauto.
    + rewrite IH; tauto.
Qed.

Lemma keys_set k v d :
  Dict.keys (Dict.set k v d)
  = if Dict.mem k d then Dict.keys d else (Dict.keys d ++ [k])%list.
Proof.
  unfold Dict.mem. induction d as [|[k' v'] d IH]; simpl; [reflexivity|].
  destruct (String.eqb k' k) eqn:E; simpl; [reflexivity|].
  rewrite IH. now destruct (Dict.get k d).
Qed.

Lemma wf_set k v d : Dict.wf d -> Dict.wf (Dict.set k v d).
Proof.
  unfold Dict.wf. intros Hnd. rewrite keys_set.
  destruct (Dict.mem k d) eqn:E; [exact Hnd|].
  assert (~ In k (Dict.keys d)) as Hn.
  { intros H. apply mem_true_in in H. congruence. }
  clear E. induction (Dict.keys d) as [|x l IH]; simpl.
  - constructor; [tauto | constructor].
  - inversion Hnd as [|? ? Hx Hl]; subst. constructor.
    + rewrite in_app_iff. simpl in *. intuition congruence.
    + apply IH; simpl in *; tauto.
Qed.

End DictFacts.

(* ================================================================== *)
(** ** Bracket-group extraction *)

Section Extraction.

Variable name : string.

Lemma offending_iff (key value : string) :
  offending name (key, value) = true <->
  Py.startswith key name = true /\ item_key key = None.
Proof.
  unfold offending. simpl. rewrite andb_true_iff, orb_true_iff, !negb_true_iff.
  now rewrite item_key_none_iff.
Qed.

Lemma offending_false (key value : string) :
  offending name (key, value) = false ->
  Py.startswith key name = true -> exists k, item_key key = Some k.
Proof.
  intros Hoff Hpre. destruct (item_key key) as [k|] eqn:E; [now exists k|].
  assert (offending name (key, value) = true) by now apply offending_iff.
  congruence.
Qed.

(** The extraction fails exactly on the first offending key, which the
    error reports. *)
Lemma get_key_values_from_find (items : Dict.t string) (acc : Dict.t qvalue) :
  match find (offending name) items with
  | Some (key, _) =>
      get_key_values_from name items acc = Raise (BadRequest "Parse error" key)
  | None => exists r, get_key_values_from name items acc = Ok r
  end.
Proof.
  revert acc. induction items as [|[key value] items IH]; intros acc; simpl.
  - now exists acc.
  - destruct (offending name (key, value)) eqn:Hoff.
    + apply offending_iff in Hoff. destruct Hoff as [Hpre Hkey].
      now rewrite Hpre, Hkey.
    + destruct (Py.startswith key name) eqn:Hpre; simpl.
      * destruct (offending_false _ _ Hoff Hpre) as [k Hk]. rewrite Hk. apply IH.
      * apply IH.
Qed.

Lemma get_key_values_from_mem_acc (items : Dict.t string) (acc r : Dict.t qvalue) k :
  get_key_values_from name items acc = Ok r ->
  Dict.mem k acc = true -> Dict.mem k r = true.
Proof.
  revert acc. induction items as [|[key value] items IH]; intros acc; simpl.
  - now intros [= ->].
  - destruct (Py.startswith key name); simpl.
    + destruct (item_key key) as [k'|]; [|discriminate].
      intros H Hm. apply (IH _ H). now apply mem_set_mono.
    + apply IH.
Qed.

(** Every key under the prefix leaves its sub-key in the result. *)
Lemma get_key_values_from_mem (items : Dict.t string) (acc r : Dict.t qvalue)
    key value k :
  get_key_values_from name items acc = Ok r ->
  In (key, value) items -> Py.startswith key name = true ->
  item_key key = Some k -> Dict.mem k r = true.
Proof.
  revert acc. induction items as [|[key' value'] items IH]; intros acc; simpl.
  - tauto.
  - intros H [Heq|Hin] Hpre Hk.
    + injection Heq as -> ->. rewrite Hpre, Hk in H. simpl in H.
      apply (get_key_values_from_mem_acc _ _ _ _ H), mem_set_same.
    + destruct (Py.startswith key' name); simpl in H.
      * destruct (item_key key'); [|discriminate]. now apply (IH _ H).
      * now apply (IH _ H).
Qed.

(** A sub-key that no later key produces keeps its value. *)
Lemma get_key_values_from_keep (items : Dict.t string) (acc r : Dict.t qvalue) k :
  get_key_values_from name items acc = Ok r ->
  (forall key value, In (key, value) items ->
     Py.startswith key name = true -> item_key key <> Some k) ->
  Dict.get k r = Dict.get k acc.
Proof.
  revert acc. induction items as [|[key value] items IH]; intros acc; simpl.
  - now intros [= ->].
  - intros H Hother.
    destruct (Py.startswith key name) eqn:Hpre; simpl in H.
    + destruct (item_key key) as [k'|] eqn:Hk; [|discriminate].
      rewrite (IH _ H) by (intros; eapply Hother; eauto).
      apply get_set_other. intros ->. now apply (Hother key value); auto.
    + apply (IH _ H). intros; eapply Hother; eauto.
Qed.

(** The last key that produces a sub-key decides its value. *)
Lemma get_key_values_from_last (pre post : Dict.t string) (acc r : Dict.t qvalue)
    key value k :
  get_key_values_from name (pre ++ (key, value) :: post)%list acc = Ok r ->
  Py.startswith key name = true -> item_key key = Some k ->
  (forall key' value', In (key', value') post ->
     Py.startswith key' name = true -> item_key key' <> Some k) ->
  Dict.get k r = Some (item_value value).
Proof.
  revert acc. induction pre as [|[key0 value0] pre IH]; intros acc; simpl.
  - intros H Hpre Hk Hpost. rewrite Hpre, Hk in H. simpl in H.
    rewrite (get_key_values_from_keep _ _ _ _ H Hpost). apply get_set_same.
  - intros H Hpre Hk Hpost.
    destruct (Py.startswith key0 name); simpl in H.
    + destruct (item_key key0); [|discriminate]. now apply (IH _ H).
    + now apply (IH _ H).
Qed.

Lemma get_key_values_from_wf (items : Dict.t string) (acc r : Dict.t qvalue) :
  get_key_values_from name items acc = Ok r -> Dict.wf acc -> Dict.wf r.
Proof.
  revert acc. induction items as [|[key value] items IH]; intros acc; simpl.
  - now intros [= ->].
  - destruct (Py.startswith key name); simpl.
    + destruct (item_key key); [|discriminate].
      intros H Hwf. apply (IH _ H). now apply wf_set.
    + apply IH.
Qed.

(** Keys that do not start with the prefix are skipped. *)
Lemma get_key_values_from_skip (items : Dict.t string) (acc : Dict.t qvalue) :
  (forall key value, In (key, value) items -> Py.startswith key name = false) ->
  get_key_values_from name items acc = Ok acc.
Proof.
  revert acc. induction items as [|[key value] items IH]; intros acc Hskip; simpl.
  - reflexivity.
  - rewrite (Hskip key value) by now left. simpl.
    apply IH. intros; eapply Hskip; right; eauto.
Qed.

End Extraction.

Lemma get_key_values_wf (qs : Dict.t string) (name : string) (r : Dict.t qvalue) :
  _get_key_values qs name = Ok r -> Dict.wf r.
Proof.
  intros H. apply (get_key_values_from_wf _ _ _ _ H). constructor.
Qed.

Lemma find_none_of {A} (f : A -> bool) (l : list A) :
  (forall x, In x l -> f x = false) -> find f l = None.
Proof.
  induction l as [|a l IH]; simpl; intros H; [reflexivity|].
  rewrite (H a) by now left. apply IH. intros; apply H; now right.
Qed.

(** C7.  Bracket-group extraction under a prefix.  (1) In a mapping whose
    keys under the prefix all carry both brackets, a key [name[key]] under
    the prefix (the last one to produce the sub-key [key]) leaves under
    [key] the list obtained by splitting its value on the comma when the
    value contains a comma, and the value itself, as a scalar, when it does
    not.  (2) For the mapping that holds only [name[key]] the result is
    exactly that one-entry dict.  (3) When some key under the prefix lacks
    the opening or the closing bracket, the extraction fails with
    BadRequest, and the parameter it reports is the first such key. *)
Theorem get_key_values_bracket_groups (qs : Dict.t string) (prefix : string) :
  (forall name key value pre post,
      qs = (pre ++ (bracket name key, value) :: post)%list ->
      Py.startswith (bracket name key) prefix = true ->
      Py.contains "[" name = false ->
      Py.contains "]" name = false ->
      Py.contains "]" key = false ->
      (forall kv, In kv (pre ++ post)%list -> offending prefix kv = false) ->
      (forall k v, In (k, v) post ->
         Py.startswith k prefix = true -> item_key k <> Some key) ->
      exists r,
        _get_key_values qs prefix = Ok r /\
        Dict.get key r
        = Some (if Py.contains "," value then Multi (Py.split "," value)
                else Scalar value))
  /\ (forall name key value,
      qs = [(bracket name key, value)] ->
      Py.startswith (bracket name key) prefix = true ->
      Py.contains "[" name = false ->
      Py.contains "]" name = false ->
      Py.contains "]" key = false ->
      _get_key_values qs prefix
      = Ok [(key, if Py.contains "," value then Multi (Py.split "," value)
                  else Scalar value)])
  /\ (forall k v,
      In (k, v) qs ->
      Py.startswith k prefix = true ->
      Py.contains "[" k = false \/ Py.contains "]" k = false ->
      exists k' v',
        find (offending prefix) qs = Some (k', v') /\
        _get_key_values qs prefix = Raise (BadRequest "Parse error" k')).
Proof.
  split; [|split].
  - intros name key value pre post -> Hpre Hn1 Hn2 Hk Hrest Hlast.
    pose proof (item_key_bracket name key Hn1 Hn2 Hk) as Hkey.
    unfold _get_key_values.
    pose proof (get_key_values_from_find prefix
                  (pre ++ (bracket name key, value) :: post)%list []) as Hfind.
    rewrite find_none_of in Hfind.
    + destruct Hfind as [r Hr]. exists r. split; [exact Hr|].
      apply (get_key_values_from_last _ _ _ _ _ _ _ _ Hr Hpre Hkey Hlast).
    + intros [k v] Hin. apply in_app_or in Hin. destruct Hin as [Hin|[Heq|Hin]].
      * apply Hrest, in_or_app. now left.
      * injection Heq as <- <-.
        destruct (offending prefix (bracket name key, value)) eqn:E; [|reflexivity].
        apply offending_iff in E. destruct E as [_ E]. congruence.
      * apply Hrest, in_or_app. now right.
  - intros name key value -> Hpre Hn1 Hn2 Hk.
    unfold _get_key_values. simpl.
    now rewrite Hpre, (item_key_bracket name key Hn1 Hn2 Hk).
  - intros k v Hin Hpre Hmiss.
    assert (offending prefix (k, v) = true) as Hoff.
    { apply offending_iff. split; [exact Hpre | now apply item_key_none_iff]. }
    pose proof (get_key_values_from_find prefix qs []) as Hfind.
    destruct (find (offending prefix) qs) as [[k' v']|] eqn:E.
    + exists k', v'. split; [reflexivity | exact Hfind].
    + pose proof (find_none _ _ E _ Hin). congruence.
Qed.

Lemma get_key_values_bracket_groups_witness :
  _get_key_values [("page[size]", "10,20")] "page" = Ok [("size", Multi ["10"; "20"])]
  /\ (exists r, _get_key_values [("page[number]", "3"); ("page[size]", "10")] "page" = Ok r
                /\ Dict.get "number" r = Some (Scalar "3"))
  /\ (exists k' v',
        find (offending "page") [("page", "1")] = Some (k', v') /\
        _get_key_values [("page", "1")] "page" = Raise (BadRequest "Parse error" k')).
Proof.
  split; [|split].
  - exact (proj1 (proj2 (get_key_values_bracket_groups [("page[size]", "10,20")] "page"))
             "page" "size" "10,20" eq_refl eq_refl eq_refl eq_refl eq_refl).
  - apply (proj1 (get_key_values_bracket_groups
                    [("page[number]", "3"); ("page[size]", "10")] "page")
             "page" "number" "3" [] [("page[size]", "10")]); try reflexivity.
    + intros kv [<-|[]]. reflexivity.
    + intros k v [[= <- <-]|[]] _. discriminate.
  - apply (proj2 (proj2 (get_key_values_bracket_groups [("page", "1")] "page"))
             "page" "1"); simpl; auto.
Defined.

(* ================================================================== *)
(** ** Pagination *)

Section Pagination.

Lemma in_set {V} (k k0 : string) (v v0 : V) (d : Dict.t V) :
  In (k, v) (Dict.set k0 v0 d) -> (k, v) = (k0, v0) \/ In (k, v) d.
Proof.
  induction d as [|[k' v'] d IH]; simpl.
  - intros [H|[]]. now left.
  - destruct (String.eqb k' k0) eqn:E; simpl.
    + apply String.eqb_eq in E. subst. intros [H|H]; auto.
    + intros [H|H]; auto. destruct (IH H); auto.
Qed.

(** Every extracted value is the [item_value] of a raw value under the
    prefix. *)
Lemma get_key_values_from_values name (items : Dict.t string)
    (acc r : Dict.t qvalue) k v :
  get_key_values_from name items acc = Ok r ->
  In (k, v) r ->
  In (k, v) acc \/
  exists key value,
    In (key, value) items /\ Py.startswith key name = true /\ v = item_value value.
Proof.
  revert acc. induction items as [|[key value] items IH]; intros acc; simpl.
  - intros [= ->]. now left.
  - destruct (Py.startswith key name) eqn:Hpre; simpl.
    + destruct (item_key key) as [k'|]; [|discriminate].
      intros H Hin. destruct (IH _ H Hin) as [Hacc|(key0 & value0 & H1 & H2 & H3)].
      * apply in_set in Hacc. destruct Hacc as [[= -> ->]|Hacc]; [|now left].
        right. exists key, value. auto.
      * right. exists key0, value0. auto.
    + intros H Hin. destruct (IH _ H Hin) as [Hacc|(key0 & value0 & H1 & H2 & H3)].
      * now left.
      * right. exists key0, value0. auto.
Qed.

Lemma check_page_raise (r : Dict.t qvalue) e :
  check_page r = Raise e -> is_BadRequest e \/ e = TypeError.
Proof.
  induction r as [|[k v] r IH]; cbn [check_page]; [discriminate|].
  destruct (str_in k ["number"; "size"]); cbn [negb].
  - destruct v as [s|l]; cbn [int_qvalue].
    + destruct (Py.int s); [exact IH|]. intros [= <-]. left. red. eauto.
    + intros [= <-]. now right.
  - intros [= <-]. left. red. eauto.
Qed.


Lemma str_in_iff (x : string) (l : list string) : str_in x l = true <-> In x l.
Proof.
  unfold str_in. rewrite existsb_exists. split.
  - intros (y & Hin & Heq). apply String.eqb_eq in Heq. now subst.
  - intros Hin. exists x. split; [exact Hin | apply String.eqb_refl].
Qed.

Lemma check_page_ok (r : Dict.t qvalue) u :
  check_page r = Ok u ->
  forall k v, In (k, v) r ->
    (k = "number" \/ k = "size") /\ exists s n, v = Scalar s /\ Py.int s = Some n.
Proof.
  induction r as [|[k0 v0] r IH]; cbn [check_page]; [simpl; tauto|].
  destruct (str_in k0 ["number"; "size"]) eqn:Hk; cbn [negb]; [|discriminate].
  destruct v0 as [s|l]; cbn [int_qvalue]; [|discriminate].
  destruct (Py.int s) as [n|] eqn:Hs; [|discriminate].
  intros H k v [[= <- <-]|Hin].
  - split.
    + apply str_in_iff in Hk. simpl in Hk. intuition.
    + eauto.
  - now apply IH.
Qed.

(** A result of [pagination] is the extraction under [page], checked. *)
Lemma pagination_ok_inv qs cfg r :
  pagination qs cfg = Ok r ->
  _get_key_values qs "page" = Ok r /\ check_page r = Ok tt.
Proof.
  unfold pagination.
  destruct (_get_key_values qs "page") as [r0|e]; simpl; [|discriminate].
  destruct (check_page r0) as [[]|e] eqn:Hcheck; simpl; [|discriminate].
  destruct (match ALLOW_DISABLE_PAGINATION cfg with
            | Some false => _ | _ => _ end) as [[|]|e]; simpl; try discriminate.
  destruct (MAX_PAGE_SIZE cfg) as [max|]; [|now intros [= <-]].
  destruct (Dict.get "size" r0) as [v|]; [|now intros [= <-]].
  destruct (int_qvalue v) as [size|e]; simpl; [|discriminate].
  destruct (Z.gtb size max); [discriminate | now intros [= <-]].
Qed.

Lemma pagination_check_raise qs cfg r e :
  _get_key_values qs "page" = Ok r -> check_page r = Raise e ->
  pagination qs cfg = Raise e.
Proof. unfold pagination. intros -> H. simpl. now rewrite H. Qed.


End Pagination.




(** C3.  A value with a comma is a list after the extraction, [int] of a
    list is a TypeError, and the accessor catches only ValueError: the
    TypeError leaves the accessor, whatever the configuration. *)
Theorem pagination_comma_value_type_error (cfg : config) :
  _get_key_values [("page[size]", "1,2")] "page" = Ok [("size", Multi ["1"; "2"])]
  /\ pagination [("page[size]", "1,2")] cfg = Raise TypeError.
Proof. split; reflexivity. Qed.

(* ================================================================== *)
(** ** The managed-parameter view *)

Section Querystring.

Variable qs : Dict.t string.

(** With a [filter[...]] group in the mapping the second operand of the
    [or] is true for every key: the view is the whole mapping. *)
Lemma querystring_with_filter_group (r : Dict.t qvalue) :
  _get_key_values qs "filter[" = Ok r -> r <> [] -> querystring qs = Ok qs.
Proof.
  intros Hr Hne. unfold querystring.
  assert (forall items, querystring_from qs items = Ok items) as H;
    [|now apply H].
  induction items as [|[key value] items IH]; cbn [querystring_from];
    [reflexivity|].
  rewrite Hr, IH.
  destruct (Py.startswith_any key MANAGED_KEYS); cbn [bind]; [reflexivity|].
  destruct r; [contradiction | reflexivity].
Qed.

(** Without one, the view keeps the keys that start with a managed name. *)
Lemma querystring_without_filter_group :
  _get_key_values qs "filter[" = Ok [] ->
  querystring qs
  = Ok (filter (fun kv => Py.startswith_any (fst kv) MANAGED_KEYS) qs).
Proof.
  intros Hr. unfold querystring.
  assert (forall items, querystring_from qs items
            = Ok (filter (fun kv => Py.startswith_any (fst kv) MANAGED_KEYS) items))
    as H; [|now apply H].
  induction items as [|[key value] items IH]; cbn [querystring_from filter fst];
    [reflexivity|].
  rewrite Hr, IH.
  now destruct (Py.startswith_any key MANAGED_KEYS).
Qed.

End Querystring.

(** C1.  The key [utm_source] starts with no managed name, and the view
    of a mapping that also holds [filter[name]] keeps it. *)
Theorem querystring_keeps_unrelated_key :
  Py.startswith_any "utm_source" MANAGED_KEYS = false
  /\ querystring [("filter[name]", "bob"); ("utm_source", "x")]
     = Ok [("filter[name]", "bob"); ("utm_source", "x")]
  /\ querystring [("sort", "name"); ("utm_source", "x")] = Ok [("sort", "name")].
Proof. repeat split; reflexivity. Qed.

(* ================================================================== *)
(** ** Includes *)

Section Include.

Lemma split_char_length (sep c : ascii) :
  (length (Py.split sep (String c EmptyString)) <= 2)%nat.
Proof. simpl. destruct (Ascii.eqb c sep); simpl; lia. Qed.

(** The depth check runs over the characters of the parameter, and one
    character splits into two parts at most: from a limit of two on, the
    check never fails. *)
Lemma check_include_chars (max : Z) (s : string) :
  (2 <= max)%Z -> check_include max (Py.chars s) = Ok tt.
Proof.
  intros Hmax. induction s as [|c s IH]; [reflexivity|].
  cbn [Py.chars check_include].
  pose proof (split_char_length "." c) as Hlen.
  destruct (Z.gtb_spec (Z.of_nat (length (Py.split "." (String c EmptyString)))) max);
    [lia | exact IH].
Qed.

Lemma include_limit_two (qs : Dict.t string) (cfg : config) (max : Z) (s : string) :
  MAX_INCLUDE_DEPTH cfg = Some max -> (2 <= max)%Z ->
  Dict.get "include" qs = Some s -> s <> "" ->
  include qs cfg = Ok (Py.split "," s).
Proof.
  intros Hcfg Hmax Hget Hne. unfold include.
  rewrite Hcfg, Hget, (check_include_chars max s Hmax). simpl.
  destruct (String.eqb_spec s ""); [contradiction | reflexivity].
Qed.

End Include.

(** C2.  With a limit of two, the path [a.b.c] has three segments and the
    accessor returns it. *)
Theorem include_depth_not_enforced :
  length (Py.split "." "a.b.c") = 3%nat
  /\ include [("include", "a.b.c")]
       {| ALLOW_DISABLE_PAGINATION := None; MAX_PAGE_SIZE := None;
          MAX_INCLUDE_DEPTH := Some 2%Z |}
     = Ok ["a.b.c"].
Proof. split; reflexivity. Qed.

(* ================================================================== *)
(** ** Filters *)

Section Filters.

Variable json_loads : string -> result pyval.

(** The accessor, once its two steps are known to succeed. *)
Lemma filters_ok (qs : Dict.t string) (l : list pyval) (kv : Dict.t qvalue) :
  match Dict.get "filter" qs with
  | None => l = []
  | Some raw =>
      exists decoded, json_loads raw = Ok decoded /\ py_iter decoded = Some l
  end ->
  _get_key_values qs "filter[" = Ok kv ->
  filters qs json_loads = Ok (l ++ _simple_filters kv)%list.
Proof.
  intros Hjson Hkv. unfold filters.
  destruct (Dict.get "filter" qs) as [raw|].
  - destruct Hjson as (decoded & -> & ->). cbn [bind]. rewrite Hkv. cbn [bind].
    destruct kv; cbn [Dict.nonempty _simple_filters map]; [|reflexivity].
    now rewrite app_nil_r.
  - subst l. cbn [bind]. rewrite Hkv. cbn [bind].
    destruct kv; reflexivity.
Qed.

Lemma filters_decode_error (qs : Dict.t string) (raw : string) :
  Dict.get "filter" qs = Some raw ->
  match json_loads raw with
  | Raise e => e = ValueError \/ e = TypeError
  | Ok decoded => py_iter decoded = None
  end ->
  filters qs json_loads = Raise (InvalidFilters "Parse error").
Proof.
  intros Hget Hdec. unfold filters. rewrite Hget.
  destruct (json_loads raw) as [decoded|e].
  - now rewrite Hdec.
  - destruct Hdec as [->| ->]; reflexivity.
Qed.

Lemma filter_groups_keys (qs : Dict.t string) (params : list (string * string)) :
  filter_groups qs params ->
  forall name, In name (map fst params) -> In (bracket "filter" name) (Dict.keys qs).
Proof.
  induction 1 as [|key value qs params Hpre _ IH|name0 value qs params Hname _ IH];
    simpl; intros name Hin.
  - contradiction.
  - right. now apply IH.
  - destruct Hin as [->|Hin]; [now left | right; now apply IH].
Qed.

(** On a dict whose keys under [filter[] are well-formed, the extraction
    appends one entry per bracket parameter, in order. *)
Lemma get_key_values_filter_groups (qs : Dict.t string)
    (params : list (string * string)) :
  filter_groups qs params -> Dict.wf qs ->
  forall acc : Dict.t qvalue,
    (forall name, In name (map fst params) -> ~ In name (Dict.keys acc)) ->
    get_key_values_from "filter[" qs acc
    = Ok (acc ++ map (fun p => (fst p, item_value (snd p))) params)%list.
Proof.
  induction 1 as [|key value qs params Hpre Hfg IH|name value qs params Hname Hfg IH];
    intros Hwf acc Hfresh.
  - simpl. now rewrite app_nil_r.
  - cbn [get_key_values_from]. rewrite Hpre. cbn [negb].
    apply IH; [|exact Hfresh]. now inversion Hwf.
  - cbn [get_key_values_from].
    change (bracket "filter" name) with ("filter[" ++ (name ++ "]")) at 1.
    rewrite startswith_app. cbn [negb].
    rewrite (item_key_bracket "filter" name eq_refl eq_refl Hname).
    inversion Hwf as [|? ? Hnotin Hwf']; subst.
    rewrite set_notin by (apply Hfresh; now left).
    rewrite IH.
    + now rewrite <- app_assoc.
    + exact Hwf'.
    + intros n Hn. unfold Dict.keys. rewrite map_app, in_app_iff. simpl.
      intros [Hacc|[->|[]]].
      * apply (Hfresh n); [now right | exact Hacc].
      * apply Hnotin. now apply (filter_groups_keys _ _ Hfg).
Qed.

Lemma simple_filters_of_groups (params : list (string * string)) :
  _simple_filters (map (fun p => (fst p, item_value (snd p))) params)
  = map equality_condition params.
Proof.
  unfold _simple_filters. rewrite map_map. apply map_ext.
  intros [name value]. unfold equality_condition, item_value. simpl.
  now destruct (Py.contains "," value).
Qed.

End Filters.

(** C6, as amended.  (1) When the [filter] parameter is present and
    [json.loads] raises ValueError on it, the accessor fails with
    InvalidFilters.  (2) For every mapping in which the [filter] parameter
    is absent or decodes to a list, and in which no key under [filter[]
    lacks a bracket, the extraction under [filter[] returns a dict and the
    accessor returns the decoded conditions, in their order, followed by
    the equality conditions synthesized from that dict, one per sub-key.
    (3) When moreover the mapping is a dict whose keys under [filter[] are
    the bracket parameters [filter[name]], with no closing bracket in a
    name, these are one equality condition per bracket parameter, in the
    order of the mapping, whose value is the list of the parts of the raw
    value when it holds a comma and the raw value otherwise. *)
Theorem filters_concatenation (json_loads : string -> result pyval)
    (qs : Dict.t string) :
  (forall raw,
      Dict.get "filter" qs = Some raw -> json_loads raw = Raise ValueError ->
      filters qs json_loads = Raise (InvalidFilters "Parse error"))
  /\ (forall decoded,
      json_conditions json_loads qs decoded ->
      (forall key value, In (key, value) qs -> offending "filter[" (key, value) = false) ->
      exists kv,
        _get_key_values qs "filter[" = Ok kv /\
        filters qs json_loads = Ok (decoded ++ _simple_filters kv)%list)
  /\ (forall decoded params,
      Dict.wf qs ->
      json_conditions json_loads qs decoded ->
      filter_groups qs params ->
      filters qs json_loads = Ok (decoded ++ map equality_condition params)%list).
Proof.
  assert (forall decoded kv,
             json_conditions json_loads qs decoded ->
             _get_key_values qs "filter[" = Ok kv ->
             filters qs json_loads = Ok (decoded ++ _simple_filters kv)%list) as H3.
  { intros decoded kv Hjson Hkv. apply filters_ok; [|exact Hkv].
    unfold json_conditions in Hjson.
    destruct (Dict.get "filter" qs) as [raw|]; [|exact Hjson].
    exists (PList decoded). now split. }
  split; [|split].
  - intros raw Hget Hdec. apply (filters_decode_error _ _ _ Hget).
    rewrite Hdec. now left.
  - intros decoded Hjson Hkeys.
    pose proof (get_key_values_from_find "filter[" qs []) as Hfind.
    rewrite find_none_of in Hfind by (intros [key value]; apply Hkeys).
    destruct Hfind as [kv Hkv]. exists kv. split; [exact Hkv|]. now apply H3.
  - intros decoded params Hwf Hjson Hfg.
    rewrite <- simple_filters_of_groups. apply H3; [exact Hjson|].
    unfold _get_key_values.
    now rewrite (get_key_values_filter_groups _ _ Hfg Hwf []).
Qed.

Lemma filters_concatenation_witness :
  filters [("filter", "not-json")] json_loads_examples
  = Raise (InvalidFilters "Parse error")
  /\ (exists kv,
        _get_key_values [("filter", age_filter_text); ("filter[name]", "bob");
                         ("filter[name]x", "eve")] "filter[" = Ok kv /\
        filters [("filter", age_filter_text); ("filter[name]", "bob");
                 ("filter[name]x", "eve")] json_loads_examples
        = Ok ([PDict [("name", PStr "age"); ("op", PStr "eq"); ("val", PInt 30)]]
              ++ _simple_filters kv)%list)
  /\ filters [("filter", age_filter_text); ("filter[name]", "bob"); ("sort", "name");
              ("filter[tags]", "a,b")] json_loads_examples
     = Ok [PDict [("name", PStr "age"); ("op", PStr "eq"); ("val", PInt 30)];
           PDict [("name", PStr "name"); ("op", PStr "eq"); ("val", PStr "bob")];
           PDict [("name", PStr "tags"); ("op", PStr "eq");
                  ("val", PList [PStr "a"; PStr "b"])]]
  /\ filters [("filter[name]", "bob")] json_loads_examples
     = Ok [PDict [("name", PStr "name"); ("op", PStr "eq"); ("val", PStr "bob")]].
Proof.
  split; [|split; [|split]].
  - apply (proj1 (filters_concatenation json_loads_examples [("filter", "not-json")])
             "not-json"); reflexivity.
  - apply (proj1 (proj2 (filters_concatenation json_loads_examples
                           [("filter", age_filter_text); ("filter[name]", "bob");
                            ("filter[name]x", "eve")]))
             [PDict [("name", PStr "age"); ("op", PStr "eq"); ("val", PInt 30)]]).
    + reflexivity.
    + intros key value [[= <- <-]|[[= <- <-]|[[= <- <-]|[]]]]; reflexivity.
  - apply (proj2 (proj2 (filters_concatenation json_loads_examples
                           [("filter", age_filter_text); ("filter[name]", "bob");
                            ("sort", "name"); ("filter[tags]", "a,b")]))
             [PDict [("name", PStr "age"); ("op", PStr "eq"); ("val", PInt 30)]]
             [("name", "bob"); ("tags", "a,b")]).
    + repeat constructor; simpl; intuition discriminate.
    + reflexivity.
    + apply fg_other; [reflexivity|].
      apply (fg_group "name" "bob"); [reflexivity|].
      apply fg_other; [reflexivity|].
      apply (fg_group "tags" "a,b"); [reflexivity|].
      apply fg_nil.
  - apply (proj2 (proj2 (filters_concatenation json_loads_examples
                           [("filter[name]", "bob")]))
             [] [("name", "bob")]).
    + repeat constructor; simpl; intuition discriminate.
    + reflexivity.
    + apply (fg_group "name" "bob"); [reflexivity | apply fg_nil].
Defined.

(** C6, the claim as written: it promises the concatenation for every raw
    mapping as soon as the decoding does not fail.  (1) On the mapping that
    holds only the key [filter[name], without its closing bracket, there is
    no [filter] parameter and the accessor raises the BadRequest of the
    extraction, whatever [json.loads] does.  (2) On [filter=7] the decoding
    succeeds, with the number 7, and the accessor fails with
    InvalidFilters. *)
Lemma filters_not_for_every_mapping :
  Dict.get "filter" [("filter[name", "bob")] = None
  /\ (forall json_loads : string -> result pyval,
        filters [("filter[name", "bob")] json_loads
        = Raise (BadRequest "Parse error" "filter[name"))
  /\ (forall json_loads : string -> result pyval,
        json_loads "7" = Ok (PInt 7) ->
        filters [("filter", "7")] json_loads = Raise (InvalidFilters "Parse error")).
Proof.
  split; [reflexivity|]. split.
  - intros json_loads. reflexivity.
  - intros json_loads H7. unfold filters. cbn [Dict.get String.eqb Ascii.eqb Bool.eqb].
    now rewrite H7.
Qed.

(** C9.  Let the [filter] parameter decode.  (1) When the decoded value is
    an object, the accessor extends its result with the keys of the
    object, and (2) when it is a string, with its characters: in both
    cases no error comes from the decoded value, and the result is these
    elements followed by the conditions of the bracket parameters.
    (3) When the decoded value is null, a boolean or a number, the
    accessor fails with InvalidFilters. *)
Theorem filters_non_list_json (json_loads : string -> result pyval)
    (qs : Dict.t string) (raw : string) (decoded : pyval) :
  Dict.get "filter" qs = Some raw ->
  json_loads raw = Ok decoded ->
  (forall d kv,
      decoded = PDict d -> _get_key_values qs "filter[" = Ok kv ->
      filters qs json_loads = Ok (map PStr (Dict.keys d) ++ _simple_filters kv)%list)
  /\ (forall s kv,
      decoded = PStr s -> _get_key_values qs "filter[" = Ok kv ->
      filters qs json_loads = Ok (map PStr (Py.chars s) ++ _simple_filters kv)%list)
  /\ (decoded = PNone \/ (exists b, decoded = PBool b)
      \/ (exists n, decoded = PInt n) \/ (exists x, decoded = PFloat x) ->
      filters qs json_loads = Raise (InvalidFilters "Parse error")).
Proof.
  intros Hget Hdec. split; [|split].
  - intros d kv -> Hkv. apply filters_ok; [|exact Hkv]. rewrite Hget.
    exists (PDict d). split; [exact Hdec|]. simpl. unfold Dict.keys.
    now rewrite map_map.
  - intros s kv -> Hkv. apply filters_ok; [|exact Hkv]. rewrite Hget.
    exists (PStr s). now split.
  - intros Hcase. apply (filters_decode_error _ _ _ Hget). rewrite Hdec.
    destruct Hcase as [->|[[b ->]|[[n ->]|[x ->]]]]; reflexivity.
Qed.

Lemma filters_non_list_json_witness :
  filters [("filter", "{" ++ quoted "a" ++ ":1," ++ quoted "b" ++ ":2}")]
    json_loads_examples = Ok [PStr "a"; PStr "b"]
  /\ filters [("filter", quoted "ab"); ("filter[name]", "bob")] json_loads_examples
     = Ok [PStr "a"; PStr "b";
           PDict [("name", PStr "name"); ("op", PStr "eq"); ("val", PStr "bob")]]
  /\ filters [("filter", "7")] json_loads_examples = Raise (InvalidFilters "Parse error").
Proof.
  split; [|split].
  - apply (proj1 (filters_non_list_json json_loads_examples
                    [("filter", "{" ++ quoted "a" ++ ":1," ++ quoted "b" ++ ":2}")]
                    ("{" ++ quoted "a" ++ ":1," ++ quoted "b" ++ ":2}")
                    (PDict [("a", PInt 1); ("b", PInt 2)]) eq_refl eq_refl)
             [("a", PInt 1); ("b", PInt 2)] []); reflexivity.
  - apply (proj1 (proj2 (filters_non_list_json json_loads_examples
                           [("filter", quoted "ab"); ("filter[name]", "bob")]
                           (quoted "ab") (PStr "ab") eq_refl eq_refl))
             "ab" [("name", Scalar "bob")]); reflexivity.
  - apply (proj2 (proj2 (filters_non_list_json json_loads_examples
                           [("filter", "7")] "7" (PInt 7) eq_refl eq_refl))).
    right. right. left. now exists 7%Z.
Defined.

(* ================================================================== *)
(** ** Sparse fieldsets *)

Section Fields.

Variable get_schema_from_type : string -> result schema.

Lemma keys_normalized (kv : Dict.t qvalue) : Dict.keys (normalized kv) = Dict.keys kv.
Proof. unfold Dict.keys, normalized. rewrite map_map. now apply map_ext. Qed.

Lemma normalized_app (d1 d2 : Dict.t qvalue) :
  normalized (d1 ++ d2)%list = (normalized d1 ++ normalized d2)%list.
Proof. apply map_app. Qed.

(** The first loop of [fields] rewrites the dict into its normal form. *)
Lemma listify_normalized_from (pre items : Dict.t qvalue) :
  Dict.wf (pre ++ items)%list ->
  listify items (normalized pre ++ items)%list = normalized (pre ++ items)%list.
Proof.
  revert pre. induction items as [|[key value] items IH]; intros pre Hwf.
  - simpl. now rewrite !app_nil_r.
  - cbn [listify].
    assert (~ In key (Dict.keys (normalized pre))) as Hfresh.
    { rewrite keys_normalized. unfold Dict.wf, Dict.keys in Hwf.
      rewrite map_app in Hwf. simpl in Hwf. apply NoDup_remove_2 in Hwf.
      intros Hin. apply Hwf, in_or_app. now left. }
    assert (Dict.wf ((pre ++ [(key, value)]) ++ items)%list) as Hwf'
      by now rewrite <- app_assoc.
    specialize (IH (pre ++ [(key, value)])%list Hwf').
    rewrite <- app_assoc in IH. simpl in IH. rewrite <- IH.
    rewrite normalized_app, <- app_assoc. simpl.
    destruct value as [s|l]; simpl.
    + now rewrite set_mid.
    + reflexivity.
Qed.

Lemma listify_normalized (kv : Dict.t qvalue) :
  Dict.wf kv -> listify kv kv = normalized kv.
Proof. intros Hwf. exact (listify_normalized_from [] kv Hwf). Qed.

Lemma check_declared_cases (sch : schema) (l : list string) :
  (check_declared sch l = Ok tt /\
   forall obj, In obj l -> Dict.mem obj (_declared_fields sch) = true)
  \/ (exists obj,
        In obj l /\ Dict.mem obj (_declared_fields sch) = false /\
        check_declared sch l
        = Raise (InvalidField (__name__ sch ++ " has no attribute " ++ obj))).
Proof.
  induction l as [|obj l IH]; cbn [check_declared].
  - left. split; [reflexivity | simpl; tauto].
  - destruct (Dict.mem obj (_declared_fields sch)) eqn:E; cbn [negb].
    + destruct IH as [[Hok Hall]|(obj' & Hin & Hmem & Hr)].
      * left. split; [exact Hok|]. intros o [<-|Ho]; auto.
      * right. exists obj'. split; [now right | now split].
    + right. exists obj. split; [now left | now split].
Qed.

(** The second loop, on the normal form, when every type has a schema. *)
Lemma check_fields_cases (kv : Dict.t qvalue) :
  (forall key value, In (key, value) kv ->
     exists sch, get_schema_from_type key = Ok sch) ->
  (check_fields get_schema_from_type (normalized kv) = Ok tt /\
   forall key value obj sch,
     In (key, value) kv -> In obj (as_list value) ->
     get_schema_from_type key = Ok sch ->
     Dict.mem obj (_declared_fields sch) = true)
  \/ ((exists detail,
         check_fields get_schema_from_type (normalized kv) = Raise (InvalidField detail))
      /\ exists key value obj sch,
           In (key, value) kv /\ In obj (as_list value) /\
           get_schema_from_type key = Ok sch /\
           Dict.mem obj (_declared_fields sch) = false).
Proof.
  induction kv as [|[key value] kv IH]; intros Hres.
  - left. split; [reflexivity | simpl; tauto].
  - cbn [normalized map check_fields fst snd iter_qvalue].
    destruct (Hres key value) as [sch Hsch]; [now left|]. rewrite Hsch. cbn [bind].
    destruct (check_declared_cases sch (as_list value))
      as [[Hok Hall]|(obj & Hin & Hmem & Hr)].
    + rewrite Hok. cbn [bind].
      destruct IH as [[Hok' Hall']|[Hraise Hex]].
      * intros; eapply Hres; right; eauto.
      * left. split; [exact Hok'|].
        intros key0 value0 obj0 sch0 [[= <- <-]|Hin0] Hobj Hsch0.
        -- assert (sch0 = sch) as -> by congruence. now apply Hall.
        -- eapply Hall'; eauto.
      * right. split; [exact Hraise|].
        destruct Hex as (key0 & value0 & obj0 & sch0 & H1 & H2 & H3 & H4).
        exists key0, value0, obj0, sch0. repeat split; auto. now right.
    + rewrite Hr. cbn [bind]. right. split; [eauto|].
      exists key, value, obj, sch. repeat split; auto. now left.
Qed.

End Fields.

(** C8.  Let the extraction under [fields] succeed and let every resource
    type it yields have a schema.  (1) When some requested field is not
    declared on the schema of its type, the accessor fails with
    InvalidField.  (2) Otherwise it returns the mapping from resource type
    to field list, in which a scalar value has become a one-element
    list. *)
Theorem fields_sparse_fieldsets (get_schema_from_type : string -> result schema)
    (qs : Dict.t string) (kv : Dict.t qvalue) :
  _get_key_values qs "fields" = Ok kv ->
  (forall key value, In (key, value) kv ->
     exists sch, get_schema_from_type key = Ok sch) ->
  ((exists key value obj sch,
       In (key, value) kv /\ In obj (as_list value) /\
       get_schema_from_type key = Ok sch /\
       Dict.mem obj (_declared_fields sch) = false) ->
   exists detail, fields qs get_schema_from_type = Raise (InvalidField detail))
  /\ ((forall key value obj sch,
         In (key, value) kv -> In obj (as_list value) ->
         get_schema_from_type key = Ok sch ->
         Dict.mem obj (_declared_fields sch) = true) ->
      fields qs get_schema_from_type = Ok (normalized kv)).
Proof.
  intros Hkv Hres. unfold fields. rewrite Hkv. cbn [bind].
  rewrite (listify_normalized kv (get_key_values_wf _ _ _ Hkv)).
  destruct (check_fields_cases get_schema_from_type kv Hres)
    as [[Hok Hall]|[[detail Hraise] Hex]].
  - rewrite Hok. cbn [bind]. split; [|reflexivity].
    intros (key & value & obj & sch & H1 & H2 & H3 & H4).
    rewrite (Hall _ _ _ _ H1 H2 H3) in H4. discriminate.
  - rewrite Hraise. cbn [bind]. split; [eauto|].
    intros Hall. destruct Hex as (key & value & obj & sch & H1 & H2 & H3 & H4).
    rewrite (Hall _ _ _ _ H1 H2 H3) in H4. discriminate.
Qed.

Lemma fields_sparse_fieldsets_witness :
  fields [("fields[person]", "name"); ("fields[article]", "title,author")]
    example_schema_from_type
  = Ok [("person", Multi ["name"]); ("article", Multi ["title"; "author"])]
  /\ exists detail,
       fields [("fields[person]", "name,age")] example_schema_from_type
       = Raise (InvalidField detail).
Proof.
  split.
  - apply (proj2 (fields_sparse_fieldsets example_schema_from_type
                    [("fields[person]", "name"); ("fields[article]", "title,author")]
                    [("person", Scalar "name"); ("article", Multi ["title"; "author"])]
                    eq_refl
                    ltac:(intros key value [[= <- <-]|[[= <- <-]|[]]];
                          eexists; reflexivity))).
    intros key value obj sch [[= <- <-]|[[= <- <-]|[]]]; simpl.
    + intros [<-|[]] [= <-]. reflexivity.
    + intros [<-|[<-|[]]] [= <-]; reflexivity.
  - apply (proj1 (fields_sparse_fieldsets example_schema_from_type
                    [("fields[person]", "name,age")]
                    [("person", Multi ["name"; "age"])]
                    eq_refl
                    ltac:(intros key value [[= <- <-]|[]]; eexists; reflexivity))).
    exists "person", (Multi ["name"; "age"]), "age", person_schema.
    repeat split; simpl; auto.
Defined.

(* ================================================================== *)
(** ** Sorting *)

Section Sorting.

Variable registry : nat -> schema.
Hypothesis registry_wf : forall n, Dict.wf (_declared_fields (registry n)).

Lemma str_in_relationships (sch : schema) (join : string) :
  Dict.wf (_declared_fields sch) ->
  str_in join (get_relationships sch) = true <->
  exists f, Dict.get join (_declared_fields sch) = Some f /\ is_relationship f = true.
Proof.
  intros Hwf. rewrite str_in_iff. unfold get_relationships, Dict.keys.
  rewrite in_map_iff. split.
  - intros ([k f] & Hk & Hin). simpl in Hk. subst k.
    apply filter_In in Hin. destruct Hin as [Hin Hrel]. simpl in Hrel.
    exists f. split; [now apply in_get_wf | exact Hrel].
  - intros (f & Hget & Hrel). exists (join, f). split; [reflexivity|].
    apply filter_In. split; [now apply get_some_in | exact Hrel].
Qed.

Lemma get_model_field_declared (sch : schema) (name : string) (f : field) :
  Dict.get name (_declared_fields sch) = Some f ->
  get_model_field sch name = Ok (model_name f name).
Proof.
  intros Hget. unfold get_model_field, model_name. rewrite Hget.
  now destruct (field_attribute f).
Qed.

(** A path of to-one relationships is walked to its end. *)
Lemma walk_joins_path (sch sch' : schema) (joins model_joins acc : list string) :
  Dict.wf (_declared_fields sch) ->
  to_one_path registry sch joins sch' model_joins ->
  walk_joins registry joins sch acc = Ok (sch', (acc ++ model_joins)%list)
  /\ Dict.wf (_declared_fields sch').
Proof.
  intros Hwf Hpath. revert acc Hwf.
  induction Hpath as [sch|sch join joins a related sch' model_joins Hget _ IH];
    intros acc Hwf.
  - simpl. now rewrite app_nil_r.
  - cbn [walk_joins].
    assert (str_in join (get_relationships sch) = true) as ->.
    { apply str_in_relationships; [exact Hwf|]. eauto. }
    cbn [negb]. rewrite Hget.
    rewrite (get_model_field_declared _ _ _ Hget). cbn [bind].
    unfold get_related_schema. rewrite Hget. cbn [bind].
    destruct (IH (acc ++ [model_name (Relationship a false related) join])%list
                (registry_wf related)) as [-> Hwf'].
    split; [|exact Hwf']. now rewrite <- app_assoc.
Qed.

(** A component that cannot be followed stops the walk with InvalidSort. *)
Lemma walk_joins_bad_join (sch : schema) (join : string) (rest acc : list string) :
  Dict.wf (_declared_fields sch) -> bad_join sch join ->
  exists detail, walk_joins registry (join :: rest) sch acc = Raise (InvalidSort detail).
Proof.
  intros Hwf Hbad. cbn [walk_joins].
  destruct (str_in join (get_relationships sch)) eqn:E; cbn [negb]; [|eauto].
  apply str_in_relationships in E; [|exact Hwf]. destruct E as (f & Hget & Hrel).
  unfold bad_join in Hbad. rewrite Hget in *.
  destruct f as [a|a many related]; [discriminate|]. subst many. eauto.
Qed.

Lemma walk_joins_bad_path (sch sch1 : schema) (pre rest mj1 acc : list string)
    (join : string) :
  Dict.wf (_declared_fields sch) ->
  to_one_path registry sch pre sch1 mj1 -> bad_join sch1 join ->
  exists detail,
    walk_joins registry (pre ++ join :: rest)%list sch acc = Raise (InvalidSort detail).
Proof.
  intros Hwf Hpath Hbad. revert acc Hwf.
  induction Hpath as [sch|sch j joins a related sch' model_joins Hget _ IH];
    intros acc Hwf.
  - now apply walk_joins_bad_join.
  - cbn [app walk_joins].
    assert (str_in j (get_relationships sch) = true) as ->.
    { apply str_in_relationships; [exact Hwf|]. eauto. }
    cbn [negb]. rewrite Hget.
    rewrite (get_model_field_declared _ _ _ Hget). cbn [bind].
    unfold get_related_schema. rewrite Hget. cbn [bind].
    apply IH; [exact Hbad | apply registry_wf].
Qed.

(** The walk ends at the end of a to-one path, or fails with InvalidSort. *)
Lemma walk_joins_cases (joins : list string) (sch : schema) (acc : list string) :
  Dict.wf (_declared_fields sch) ->
  (exists sch' model_joins,
      to_one_path registry sch joins sch' model_joins /\
      walk_joins registry joins sch acc = Ok (sch', (acc ++ model_joins)%list))
  \/ (exists detail, walk_joins registry joins sch acc = Raise (InvalidSort detail)).
Proof.
  revert sch acc. induction joins as [|join joins IH]; intros sch acc Hwf.
  - left. exists sch, []. split; [constructor | simpl; now rewrite app_nil_r].
  - cbn [walk_joins].
    destruct (str_in join (get_relationships sch)) eqn:E; cbn [negb]; [|eauto].
    apply str_in_relationships in E; [|exact Hwf]. destruct E as (f & Hget & Hrel).
    rewrite Hget. destruct f as [a|a many related]; [discriminate|].
    destruct many; [eauto|].
    rewrite (get_model_field_declared _ _ _ Hget). cbn [bind].
    unfold get_related_schema. rewrite Hget. cbn [bind].
    destruct (IH (registry related)
                (acc ++ [model_name (Relationship a false related) join])%list
                (registry_wf related)) as [(sch' & mj & Hpath & Hwalk)|Hraise].
    + left. exists sch', (model_name (Relationship a false related) join :: mj).
      split; [now apply path_cons with (1 := Hget)|].
      rewrite Hwalk. now rewrite <- app_assoc.
    + now right.
Qed.

Variable self_schema : schema.
Hypothesis self_schema_wf : Dict.wf (_declared_fields self_schema).

Local Abbreviation resolve := (resolve_sort self_schema registry).
Local Abbreviation segment := (sort_segment self_schema registry).

(** The last checks of a segment, at the end of the walk. *)
Lemma final_field_cases (sch : schema) (schema_field order : string)
    (nulls : option string) (model_joins : list string) :
  Dict.wf (_declared_fields sch) ->
  let r :=
    if negb (Dict.mem schema_field (_declared_fields sch)) then
      Raise (InvalidSort (__name__ sch ++ " has no attribute " ++ schema_field))
    else if str_in schema_field (get_relationships sch) then
      Raise (InvalidSort ("You can't sort on " ++ schema_field
                            ++ " because it is a relationship field"))
    else
      model_field <- get_model_field sch schema_field ;;
      Ok {| sort_field_ := model_field; sort_order := order;
            sort_nulls := nulls; sort_joins := model_joins |} in
  (exists a,
      Dict.get schema_field (_declared_fields sch) = Some (Attribute a) /\
      r = Ok {| sort_field_ := model_name (Attribute a) schema_field;
                sort_order := order; sort_nulls := nulls;
                sort_joins := model_joins |})
  \/ (bad_field sch schema_field /\ exists detail, r = Raise (InvalidSort detail)).
Proof.
  intros Hwf r. subst r. unfold Dict.mem, bad_field.
  destruct (Dict.get schema_field (_declared_fields sch)) as [f|] eqn:Hget;
    cbn [negb]; [|right; eauto].
  destruct (str_in schema_field (get_relationships sch)) eqn:E.
  - apply str_in_relationships in E; [|exact Hwf]. destruct E as (f' & Hget' & Hrel).
    assert (f' = f) as -> by congruence.
    destruct f; [discriminate|]. right. eauto.
  - destruct f as [a|a many related].
    + left. exists a. split; [reflexivity|].
      now rewrite (get_model_field_declared _ _ _ Hget).
    + assert (str_in schema_field (get_relationships sch) = true) as E'.
      { apply str_in_relationships; [exact Hwf|]. eauto. }
      congruence.
Qed.

Lemma to_one_path_fun (sch : schema) (joins : list string) sch1 mj1 sch2 mj2 :
  to_one_path registry sch joins sch1 mj1 ->
  to_one_path registry sch joins sch2 mj2 -> sch1 = sch2 /\ mj1 = mj2.
Proof.
  intros H1. revert sch2 mj2.
  induction H1 as [sch|sch join joins a related sch' mj Hget _ IH];
    intros sch2 mj2 H2; inversion H2; subst.
  - now split.
  - assert (Relationship a false related = Relationship a0 false related0) as Heq
      by congruence.
    injection Heq as <- <-.
    match goal with H : to_one_path _ _ _ sch2 _ |- _ =>
      destruct (IH _ _ H) as [-> ->] end.
    now split.
Qed.

(** A match resolves to the entry it stands for, or fails with
    InvalidSort. *)
Lemma resolve_sort_cases (g : string * option string * string * string) :
  (exists item, sortable registry self_schema g item /\ resolve g = Ok item)
  \/ (exists detail, resolve g = Raise (InvalidSort detail)).
Proof.
  destruct g as [[[minus nulls] join_path] schema_field].
  unfold resolve_sort. fold (schema_joins join_path).
  destruct (walk_joins_cases (schema_joins join_path) self_schema [] self_schema_wf)
    as [(sch' & mj & Hpath & Hwalk)|[detail Hraise]].
  - rewrite Hwalk. cbn [bind app].
    destruct (walk_joins_path _ _ _ _ [] self_schema_wf Hpath) as [_ Hwf'].
    destruct (final_field_cases sch' schema_field
                (if String.eqb minus "" then "asc" else "desc") nulls mj Hwf')
      as [(a & Hget & Hr)|[_ [detail Hr]]].
    + left. eexists. split; [|exact Hr]. cbn. exists sch', mj, a. auto.
    + right. exists detail. exact Hr.
  - right. exists detail. now rewrite Hraise.
Qed.

Lemma resolve_sort_ok (g : string * option string * string * string) (item : sort_item) :
  resolve g = Ok item <-> sortable registry self_schema g item.
Proof.
  split.
  - intros Hok. destruct (resolve_sort_cases g) as [(item' & Hs & Hr)|[detail Hr]].
    + assert (item' = item) as -> by congruence. exact Hs.
    + congruence.
  - intros Hs. destruct (resolve_sort_cases g) as [(item' & Hs' & Hr)|[detail Hr]].
    + rewrite Hr. f_equal.
      destruct g as [[[minus nulls] join_path] schema_field]. cbn in Hs, Hs'.
      destruct Hs as (sch1 & mj1 & a1 & Hp1 & Hg1 & ->).
      destruct Hs' as (sch2 & mj2 & a2 & Hp2 & Hg2 & ->).
      destruct (to_one_path_fun _ _ _ _ _ _ Hp1 Hp2) as [-> ->].
      assert (a1 = a2) as -> by congruence. reflexivity.
    + exfalso.
      destruct g as [[[minus nulls] join_path] schema_field]. cbn in Hs.
      destruct Hs as (sch1 & mj1 & a1 & Hp1 & Hg1 & _).
      unfold resolve_sort in Hr. fold (schema_joins join_path) in Hr.
      destruct (walk_joins_path _ _ _ _ [] self_schema_wf Hp1) as [Hwalk Hwf'].
      rewrite Hwalk in Hr. cbn [bind app] in Hr.
      destruct (final_field_cases sch1 schema_field
                  (if String.eqb minus "" then "asc" else "desc") nulls mj1 Hwf')
        as [(a & Hget & Hr')|[Hbad _]].
      * cbv zeta in Hr'. congruence.
      * unfold bad_field in Hbad. now rewrite Hg1 in Hbad.
Qed.

Lemma sort_segment_raise (sort_field : string) (e : exn) :
  segment sort_field = Raise e -> is_InvalidSort e.
Proof.
  unfold sort_segment. destruct (pattern_match sort_field) as [g|].
  - destruct (resolve_sort_cases g) as [(item & _ & Hr)|[detail Hr]]; rewrite Hr.
    + discriminate.
    + intros [= <-]. red. eauto.
  - intros [= <-]. red. eauto.
Qed.

Lemma sorting_from_ok (sort_fields : list string) (acc items : list sort_item) :
  sorting_from self_schema registry sort_fields acc = Ok items <->
  exists new,
    items = (acc ++ new)%list /\
    Forall2 (fun sort_field item => segment sort_field = Ok item) sort_fields new.
Proof.
  revert acc. induction sort_fields as [|sort_field sort_fields IH]; intros acc;
    cbn [sorting_from].
  - split.
    + intros [= <-]. exists []. split; [now rewrite app_nil_r | constructor].
    + intros (new & -> & Hall). inversion Hall. now rewrite app_nil_r.
  - destruct (segment sort_field) as [item|e] eqn:Hseg; cbn [bind].
    + rewrite IH. split.
      * intros (new & -> & Hall). exists (item :: new).
        split; [now rewrite <- app_assoc | now constructor].
      * intros (new & -> & Hall). inversion Hall as [|? item' ? new' Hitem Hall']; subst.
        assert (item' = item) as -> by congruence.
        exists new'. split; [now rewrite <- app_assoc | exact Hall'].
    + split; [discriminate|].
      intros (new & _ & Hall). inversion Hall; subst. congruence.
Qed.

Lemma sorting_from_raise (sort_fields : list string) (acc : list sort_item) (e : exn) :
  sorting_from self_schema registry sort_fields acc = Raise e -> is_InvalidSort e.
Proof.
  revert acc. induction sort_fields as [|sort_field sort_fields IH]; intros acc;
    cbn [sorting_from]; [discriminate|].
  destruct (segment sort_field) as [item|e'] eqn:Hseg; cbn [bind].
  - apply IH.
  - intros [= <-]. now apply sort_segment_raise with (1 := Hseg).
Qed.

(** One segment that fails makes the loop fail, with InvalidSort. *)
Lemma sorting_from_bad_segment (sort_fields : list string) (acc : list sort_item)
    (sort_field : string) (e : exn) :
  In sort_field sort_fields -> segment sort_field = Raise e ->
  exists detail,
    sorting_from self_schema registry sort_fields acc = Raise (InvalidSort detail).
Proof.
  intros Hin Hseg.
  destruct (sorting_from self_schema registry sort_fields acc) as [items|e'] eqn:Hs.
  - apply sorting_from_ok in Hs. destruct Hs as (new & _ & Hall).
    exfalso. clear - Hin Hseg Hall.
    induction Hall as [|x item l l' Hx _ IH]; [contradiction|].
    destruct Hin as [->|Hin]; [congruence | now apply IH].
  - apply sorting_from_raise in Hs. destruct Hs as [detail ->]. eauto.
Qed.

End Sorting.

Lemma example_registry_wf (n : nat) : Dict.wf (_declared_fields (example_registry n)).
Proof.
  destruct n as [|[|n]]; repeat constructor; simpl; intuition discriminate.
Qed.

(** C5.  Let the schemas be dicts of declared fields and let the [sort]
    parameter be present and not empty.  For a segment of the parameter
    with groups (minus, nulls, path, field): (1) when a component of the
    path, reached through declared to-one relationships, is not a declared
    relationship or is to-many, the accessor fails with InvalidSort;
    (2) when the path is followed to its end and the field is not declared
    on the schema reached, or is a relationship there, the accessor fails
    with InvalidSort.  (3) The accessor returns a list exactly when every
    segment matches and resolves, and the list holds, segment by segment,
    the model-level field, the order, the nulls directive and the ordered
    model-level joins. *)
Theorem sorting_resolution (registry : nat -> schema) (self_schema : schema)
    (qs : Dict.t string) (sort : string) :
  (forall n, Dict.wf (_declared_fields (registry n))) ->
  Dict.wf (_declared_fields self_schema) ->
  Dict.get "sort" qs = Some sort ->
  sort <> "" ->
  (forall sort_field minus nulls join_path schema_field,
      In sort_field (Py.split "," sort) ->
      pattern_match sort_field = Some (minus, nulls, join_path, schema_field) ->
      (forall pre join rest sch1 mj1,
          schema_joins join_path = (pre ++ join :: rest)%list ->
          to_one_path registry self_schema pre sch1 mj1 ->
          bad_join sch1 join ->
          exists detail, sorting qs self_schema registry = Raise (InvalidSort detail))
      /\ (forall sch' model_joins,
          to_one_path registry self_schema (schema_joins join_path) sch' model_joins ->
          bad_field sch' schema_field ->
          exists detail, sorting qs self_schema registry = Raise (InvalidSort detail)))
  /\ (forall items,
      sorting qs self_schema registry = Ok items <->
      Forall2 (fun sort_field item =>
                 exists g, pattern_match sort_field = Some g /\
                           sortable registry self_schema g item)
        (Py.split "," sort) items).
Proof.
  intros Hreg Hself Hget Hne.
  assert (sorting qs self_schema registry
          = sorting_from self_schema registry (Py.split "," sort) []) as Hsorting.
  { unfold sorting. rewrite Hget. destruct sort; [contradiction | reflexivity]. }
  rewrite Hsorting. split.
  - intros sort_field minus nulls join_path schema_field Hin Hmatch.
    assert (forall e, resolve_sort self_schema registry
                        (minus, nulls, join_path, schema_field) = Raise e ->
              exists detail,
                sorting_from self_schema registry (Py.split "," sort) []
                = Raise (InvalidSort detail)) as Hfail.
    { intros e He.
      apply (sorting_from_bad_segment registry Hreg self_schema Hself _ _ sort_field e Hin).
      unfold sort_segment. now rewrite Hmatch. }
    split.
    + intros pre join rest sch1 mj1 Hjoins Hpath Hbad.
      destruct (walk_joins_bad_path registry Hreg self_schema sch1 pre rest mj1 []
                  join Hself Hpath Hbad) as [detail Hwalk].
      apply (Hfail (InvalidSort detail)).
      unfold resolve_sort. fold (schema_joins join_path).
      now rewrite Hjoins, Hwalk.
    + intros sch' model_joins Hpath Hbad.
      destruct (walk_joins_path registry Hreg _ _ _ _ [] Hself Hpath) as [Hwalk Hwf'].
      destruct (final_field_cases sch' schema_field
                  (if String.eqb minus "" then "asc" else "desc") nulls model_joins Hwf')
        as [(a & Hfield & _)|[_ [detail Hr]]].
      * unfold bad_field in Hbad. now rewrite Hfield in Hbad.
      * apply (Hfail (InvalidSort detail)).
        unfold resolve_sort. fold (schema_joins join_path).
        rewrite Hwalk. cbn [bind app]. exact Hr.
  - intros items. rewrite sorting_from_ok.
    assert (forall sort_field item,
               sort_segment self_schema registry sort_field = Ok item <->
               exists g, pattern_match sort_field = Some g /\
                         sortable registry self_schema g item) as Hseg.
    { intros sort_field item. unfold sort_segment.
      destruct (pattern_match sort_field) as [g|].
      - rewrite (resolve_sort_ok registry Hreg self_schema Hself). split.
        + intros Hs. exists g. now split.
        + intros (g' & [= <-] & Hs). exact Hs.
      - split; [discriminate|]. intros (g & Hg & _). discriminate. }
    split.
    + intros (new & -> & Hall). cbn [app].
      eapply Forall2_impl; [|exact Hall]. intros a b. apply Hseg.
    + intros Hall. exists items. split; [reflexivity|].
      eapply Forall2_impl; [|exact Hall]. intros a b. apply Hseg.
Qed.

Lemma sorting_resolution_witness :
  sorting [("sort", "-created_at,[nullslast]author.name")] article_schema example_registry
  = Ok [ {| sort_field_ := "created_at"; sort_order := "desc";
            sort_nulls := None; sort_joins := [] |};
         {| sort_field_ := "name"; sort_order := "asc";
            sort_nulls := Some "nullslast"; sort_joins := ["writer"] |} ]
  /\ (exists detail,
        sorting [("sort", "title,comments.body")] article_schema example_registry
        = Raise (InvalidSort detail))
  /\ (exists detail,
        sorting [("sort", "author")] article_schema example_registry
        = Raise (InvalidSort detail)).
Proof.
  split; [|split].
  - apply (proj2 (proj2 (sorting_resolution example_registry article_schema
                           [("sort", "-created_at,[nullslast]author.name")]
                           "-created_at,[nullslast]author.name"
                           example_registry_wf (example_registry_wf 1) eq_refl
                           ltac:(discriminate))
                    [ {| sort_field_ := "created_at"; sort_order := "desc";
                         sort_nulls := None; sort_joins := [] |};
                      {| sort_field_ := "name"; sort_order := "asc";
                         sort_nulls := Some "nullslast"; sort_joins := ["writer"] |} ])).
    change (Py.split "," "-created_at,[nullslast]author.name")
      with ["-created_at"; "[nullslast]author.name"].
    constructor; [|constructor; [|constructor]].
    + exists ("-", None, "", "created_at"). split; [reflexivity|].
      exists article_schema, [], None. repeat split. apply path_nil.
    + exists ("", Some "nullslast", "author.", "name"). split; [reflexivity|].
      exists person_schema, ["writer"], None. repeat split.
      apply (path_cons example_registry article_schema "author" []
               (Some "writer") 0 person_schema []); [reflexivity | apply path_nil].
  - apply (proj1 (proj1 (sorting_resolution example_registry article_schema
                           [("sort", "title,comments.body")] "title,comments.body"
                           example_registry_wf (example_registry_wf 1) eq_refl
                           ltac:(discriminate))
                    "comments.body" "" None "comments." "body"
                    ltac:(simpl; tauto) eq_refl)
             [] "comments" [] article_schema []).
    + reflexivity.
    + apply path_nil.
    + reflexivity.
  - apply (proj2 (proj1 (sorting_resolution example_registry article_schema
                           [("sort", "author")] "author"
                           example_registry_wf (example_registry_wf 1) eq_refl
                           ltac:(discriminate))
                    "author" "" None "" "author"
                    ltac:(simpl; tauto) eq_refl)
             article_schema []).
    + apply path_nil.
    + exact I.
Defined.

(** C4.  A segment that does not match makes the accessor fail with
    InvalidSort, and the message is the same text for every segment: the
    braces and the name of the variable are part of it, the segment is
    not.  The pattern is matched at the start of the segment only, so a
    segment with characters outside the grammar after a field name is
    accepted. *)
Theorem sorting_invalid_format_message (self_schema : schema) (registry : nat -> schema) :
  sorting [("sort", "!")] self_schema registry
  = Raise (InvalidSort "Invalid sort field format {sort_field}")
  /\ sorting [("sort", "name,")] person_schema example_registry
     = Raise (InvalidSort "Invalid sort field format {sort_field}")
  /\ sorting [("sort", "name!!")] person_schema example_registry
     = Ok [ {| sort_field_ := "name"; sort_order := "asc";
               sort_nulls := None; sort_joins := [] |} ].
Proof. repeat split; reflexivity. Qed.

(* ================================================================== *)
(** ** Pagination: the checks that hold on the code

    The clauses of the pagination accessor other than the one on
    comma-joined values. *)

Section PaginationChecks.

Variable qs : Dict.t string.
Variable cfg : config.
Variable r : Dict.t qvalue.
Hypothesis extraction : _get_key_values qs "page" = Ok r.

(** The first entry whose sub-key is unknown stops the loop. *)
Lemma pagination_unknown_key (pre post : Dict.t qvalue) (key : string) (value : qvalue) :
  r = (pre ++ (key, value) :: post)%list ->
  check_page pre = Ok tt ->
  key <> "number" -> key <> "size" ->
  pagination qs cfg
  = Raise (BadRequest (key ++ " is not a valid parameter of pagination") "page").
Proof.
  intros Hr Hpre Hn1 Hn2. apply pagination_check_raise with (r := r); [exact extraction|].
  rewrite Hr. clear Hr extraction. induction pre as [|[k v] pre IH].
  - cbn [app check_page].
    destruct (str_in key ["number"; "size"]) eqn:E; [|reflexivity].
    apply str_in_iff in E. simpl in E. intuition congruence.
  - cbn [app check_page] in *.
    destruct (str_in k ["number"; "size"]); cbn [negb] in *; [|discriminate].
    destruct (int_qvalue v) as [n|[]]; try discriminate. now apply IH.
Qed.

(** The first entry whose value is a string that is no integer stops the
    loop, and the error names its sub-parameter. *)
Lemma pagination_not_an_integer (pre post : Dict.t qvalue) (key s : string) :
  r = (pre ++ (key, Scalar s) :: post)%list ->
  check_page pre = Ok tt ->
  key = "number" \/ key = "size" ->
  Py.int s = None ->
  pagination qs cfg = Raise (BadRequest "Parse error" ("page[" ++ key ++ "]")).
Proof.
  intros Hr Hpre Hkey Hs. apply pagination_check_raise with (r := r); [exact extraction|].
  rewrite Hr. clear Hr extraction. induction pre as [|[k v] pre IH].
  - cbn [app check_page int_qvalue]. rewrite Hs.
    now destruct Hkey as [->| ->].
  - cbn [app check_page] in *.
    destruct (str_in k ["number"; "size"]); cbn [negb] in *; [|discriminate].
    destruct (int_qvalue v) as [n|[]]; try discriminate. now apply IH.
Qed.

Lemma int_qvalue_size :
  check_page r = Ok tt ->
  forall v, Dict.get "size" r = Some v -> int_qvalue v = Ok (page_size r).
Proof.
  intros Hcheck v Hget. unfold page_size. rewrite Hget.
  destruct (check_page_ok _ _ Hcheck _ _ (get_some_in _ _ _ Hget))
    as (_ & s & n & -> & Hs).
  cbn [int_qvalue]. now rewrite Hs.
Qed.

(** After the loop: the policy on disabling, then the maximum, then the
    dict itself. *)
Lemma pagination_checked :
  check_page r = Ok tt ->
  pagination qs cfg =
  if disabling_disallowed cfg && Z.eqb (page_size r) 0 then
    Raise (BadRequest "You are not allowed to disable pagination" "page[size]")
  else
    match MAX_PAGE_SIZE cfg with
    | Some max =>
        if Dict.mem "size" r && Z.gtb (page_size r) max then
          Raise (BadRequest ("Maximum page size is " ++ Py.str_of_int max) "page[size]")
        else Ok r
    | None => Ok r
    end.
Proof.
  intros Hcheck. unfold pagination. rewrite extraction. cbn [bind].
  rewrite Hcheck. cbn [bind].
  pose proof (int_qvalue_size Hcheck) as Hsize.
  assert (match Dict.get "size" r with
          | Some v => int_qvalue v
          | None => Ok 1%Z
          end = Ok (page_size r)) as Hdefault.
  { destruct (Dict.get "size" r) as [v|] eqn:E; [now apply Hsize|].
    unfold page_size. now rewrite E. }
  unfold disabling_disallowed, Dict.mem.
  destruct (ALLOW_DISABLE_PAGINATION cfg) as [[|]|]; cbn [andb bind].
  - destruct (MAX_PAGE_SIZE cfg) as [max|]; [|reflexivity].
    destruct (Dict.get "size" r) as [v|]; [|reflexivity].
    rewrite (Hsize v eq_refl). cbn [bind andb].
    now destruct (Z.gtb (page_size r) max).
  - rewrite Hdefault. cbn [bind].
    destruct (Z.eqb (page_size r) 0); [reflexivity|].
    destruct (MAX_PAGE_SIZE cfg) as [max|]; [|reflexivity].
    destruct (Dict.get "size" r) as [v|]; [|reflexivity].
    rewrite (Hsize v eq_refl). cbn [bind andb].
    now destruct (Z.gtb (page_size r) max).
  - destruct (MAX_PAGE_SIZE cfg) as [max|]; [|reflexivity].
    destruct (Dict.get "size" r) as [v|]; [|reflexivity].
    rewrite (Hsize v eq_refl). cbn [bind andb].
    now destruct (Z.gtb (page_size r) max).
Qed.

End PaginationChecks.

Example pagination_documented :
  pagination [("page[number]", "25"); ("page[size]", "10")] default_config
  = Ok [("number", Scalar "25"); ("size", Scalar "10")]
  /\ pagination [("page[size]", "0")]
       {| ALLOW_DISABLE_PAGINATION := Some false; MAX_PAGE_SIZE := None;
          MAX_INCLUDE_DEPTH := None |}
     = Raise (BadRequest "You are not allowed to disable pagination" "page[size]")
  /\ pagination [("page[size]", "9999")]
       {| ALLOW_DISABLE_PAGINATION := None; MAX_PAGE_SIZE := Some 100%Z;
          MAX_INCLUDE_DEPTH := None |}
     = Raise (BadRequest "Maximum page size is 100" "page[size]")
  /\ pagination [("page[number]", "abc")] default_config
     = Raise (BadRequest "Parse error" "page[number]").
Proof. repeat split; reflexivity. Qed.

Example include_documented :
  include [("include", "author.publisher")]
    {| ALLOW_DISABLE_PAGINATION := None; MAX_PAGE_SIZE := None;
       MAX_INCLUDE_DEPTH := Some 1%Z |}
  = Raise (InvalidInclude "You can't use include through more than 1 relationships")
  /\ include [("include", "author.publisher")] default_config = Ok ["author.publisher"]
  /\ include [] default_config = Ok [].
Proof. repeat split; reflexivity. Qed.

Example pattern_documented :
  pattern_match "-[nullslast]foo.bar.baz" = Some ("-", Some "nullslast", "foo.bar.", "baz")
  /\ pattern_match "" = None
  /\ pattern_match "[nulls]x" = None
  /\ pattern_match "foo.bar." = Some ("", None, "foo.", "bar").
Proof. repeat split; reflexivity. Qed.

(* ================================================================== *)
(** ** Further properties of the extraction *)

Section ExtractionMore.

Variable name : string.

Lemma get_key_values_from_filter (items : Dict.t string) (acc : Dict.t qvalue) :
  get_key_values_from name (filter (under name) items) acc
  = get_key_values_from name items acc.
Proof.
  revert acc. induction items as [|[key value] items IH]; intros acc;
    [reflexivity|].
  cbn [filter]. unfold under at 1. cbn [fst].
  destruct (Py.startswith key name) eqn:Hpre;
    cbn [get_key_values_from]; rewrite ?Hpre; cbn [negb].
  - destruct (item_key key); [apply IH | reflexivity].
  - apply IH.
Qed.

(** Where an entry of the result comes from. *)
Lemma get_key_values_from_origin (items : Dict.t string) (acc r : Dict.t qvalue) k v :
  get_key_values_from name items acc = Ok r ->
  In (k, v) r ->
  In (k, v) acc \/
  exists key value,
    In (key, value) items /\ Py.startswith key name = true /\
    item_key key = Some k /\ v = item_value value.
Proof.
  revert acc. induction items as [|[key value] items IH]; intros acc;
    cbn [get_key_values_from].
  - intros [= ->]. now left.
  - destruct (Py.startswith key name) eqn:Hpre; cbn [negb].
    + destruct (item_key key) as [k'|] eqn:Hk; [|discriminate].
      intros H Hin.
      destruct (IH _ H Hin) as [Hacc|(key0 & value0 & H1 & H2 & H3 & H4)].
      * apply in_set in Hacc. destruct Hacc as [[= -> ->]|Hacc]; [|now left].
        right. exists key, value. repeat split; auto. now left.
      * right. exists key0, value0. repeat split; auto. now right.
    + intros H Hin.
      destruct (IH _ H Hin) as [Hacc|(key0 & value0 & H1 & H2 & H3 & H4)].
      * now left.
      * right. exists key0, value0. repeat split; auto. now right.
Qed.

End ExtractionMore.

Section Split.

Variable sep : ascii.

Lemma split_not_nil (s : string) : Py.split sep s <> [].
Proof.
  destruct s as [|d s]; simpl; [discriminate|].
  destruct (Ascii.eqb d sep); [discriminate|].
  destruct (Py.split sep s); discriminate.
Qed.

Lemma join_cons (x : string) (l : list string) :
  l <> [] ->
  join (String sep EmptyString) (x :: l)
  = x ++ String sep EmptyString ++ join (String sep EmptyString) l.
Proof. destruct l; [contradiction | reflexivity]. Qed.

Lemma join_split (s : string) :
  join (String sep EmptyString) (Py.split sep s) = s.
Proof.
  induction s as [|d s IH]; [reflexivity|].
  cbn [Py.split]. pose proof (split_not_nil s) as Hnil.
  destruct (Ascii.eqb_spec d sep) as [->|Hne].
  - rewrite (join_cons _ _ Hnil), IH. reflexivity.
  - destruct (Py.split sep s) as [|w ws] eqn:E; [contradiction|].
    destruct ws as [|w' ws].
    + cbn [join] in *. now rewrite IH.
    + rewrite join_cons by discriminate. rewrite join_cons in IH by discriminate.
      transitivity (String d (w ++ String sep "" ++ join (String sep "") (w' :: ws)));
        [reflexivity | now rewrite IH].
Qed.

Lemma split_parts (s : string) :
  forall p, In p (Py.split sep s) -> Py.contains sep p = false.
Proof.
  induction s as [|d s IH]; cbn [Py.split].
  - intros p [<-|[]]. reflexivity.
  - destruct (Ascii.eqb d sep) eqn:E.
    + intros p [<-|Hin]; [reflexivity | now apply IH].
    + pose proof (split_not_nil s) as Hnil.
      destruct (Py.split sep s) as [|w ws]; [contradiction|].
      intros p [<-|Hin].
      * simpl. rewrite E. apply IH. now left.
      * apply IH. now right.
Qed.

Lemma split_length (s : string) :
  Py.contains sep s = true -> (2 <= length (Py.split sep s))%nat.
Proof.
  induction s as [|d s IH]; cbn [Py.split Py.contains]; [discriminate|].
  destruct (Ascii.eqb d sep); cbn [orb].
  - intros _. pose proof (split_not_nil s).
    destruct (Py.split sep s); [contradiction | simpl; lia].
  - intros H. specialize (IH H).
    destruct (Py.split sep s); simpl in *; lia.
Qed.

Lemma split_no_sep (s : string) :
  Py.contains sep s = false -> Py.split sep s = [s].
Proof.
  induction s as [|d s IH]; cbn [Py.split Py.contains]; [reflexivity|].
  destruct (Ascii.eqb d sep); cbn [orb]; [discriminate|].
  intros H. now rewrite (IH H).
Qed.

End Split.

(** X1.  The extraction under a prefix returns the empty dict exactly when
    no key of the mapping starts with the prefix. *)
Theorem get_key_values_empty_iff (qs : Dict.t string) (name : string) :
  _get_key_values qs name = Ok [] <->
  forall key value, In (key, value) qs -> Py.startswith key name = false.
Proof.
  split.
  - intros Hr key value Hin.
    destruct (Py.startswith key name) eqn:Hpre; [|reflexivity]. exfalso.
    destruct (item_key key) as [k|] eqn:Hk.
    + pose proof (get_key_values_from_mem _ _ _ _ _ _ _ Hr Hin Hpre Hk) as Hmem.
      discriminate.
    + pose proof (get_key_values_from_find name qs []) as Hfind.
      destruct (find (offending name) qs) as [[k' v']|] eqn:E.
      * unfold _get_key_values in Hr. congruence.
      * pose proof (find_none _ _ E _ Hin) as Hoff.
        assert (offending name (key, value) = true) by now apply offending_iff.
        congruence.
  - intros Hskip. now apply get_key_values_from_skip.
Qed.

(** X2.  The extraction looks only at the keys under its prefix: it gives
    the same result, or the same error, on the mapping restricted to these
    keys.  The same holds for the pagination and the fields accessors. *)
Theorem get_key_values_frame (qs : Dict.t string) (name : string) :
  _get_key_values (filter (under name) qs) name = _get_key_values qs name
  /\ (forall cfg, pagination (filter (under "page") qs) cfg = pagination qs cfg)
  /\ (forall get_schema_from_type,
        fields (filter (under "fields") qs) get_schema_from_type
        = fields qs get_schema_from_type).
Proof.
  split; [|split].
  - apply get_key_values_from_filter.
  - intros cfg. unfold pagination, _get_key_values.
    now rewrite get_key_values_from_filter.
  - intros get_schema_from_type. unfold fields, _get_key_values.
    now rewrite get_key_values_from_filter.
Qed.

(** X3.  A dict that the extraction returns has no sub-key twice, and each
    of its entries comes from a raw key under the prefix: the sub-key is the
    text between the brackets of that key, and the value is the raw value
    when it holds no comma, and otherwise a list of at least two parts, none
    with a comma, that joined by commas give the raw value back. *)
Theorem get_key_values_invariant (qs : Dict.t string) (name : string)
    (r : Dict.t qvalue) :
  _get_key_values qs name = Ok r ->
  Dict.wf r
  /\ forall k v, In (k, v) r ->
       exists key value,
         In (key, value) qs /\ Py.startswith key name = true /\
         item_key key = Some k /\
         match v with
         | Scalar s => s = value /\ Py.contains "," s = false
         | Multi l =>
             (2 <= length l)%nat /\
             (forall p, In p l -> Py.contains "," p = false) /\
             join "," l = value
         end.
Proof.
  intros Hr. split; [exact (get_key_values_wf _ _ _ Hr)|].
  intros k v Hin.
  destruct (get_key_values_from_origin _ _ _ _ _ _ Hr Hin)
    as [[]|(key & value & H1 & H2 & H3 & ->)].
  exists key, value. repeat split; auto.
  unfold item_value. destruct (Py.contains "," value) eqn:E.
  - repeat split.
    + now apply split_length.
    + apply split_parts.
    + apply (join_split "," value).
  - now split.
Qed.

Lemma get_key_values_invariant_witness :
  Dict.wf [("number", Scalar "3"); ("size", Multi ["10"; "20"])]
  /\ forall k v, In (k, v) [("number", Scalar "3"); ("size", Multi ["10"; "20"])] ->
       exists key value,
         In (key, value) [("page[number]", "1"); ("page[size]", "10,20");
                          ("sort", "name"); ("pages[number]", "3")] /\
         Py.startswith key "page" = true /\
         item_key key = Some k /\
         match v with
         | Scalar s => s = value /\ Py.contains "," s = false
         | Multi l =>
             (2 <= length l)%nat /\
             (forall p, In p l -> Py.contains "," p = false) /\
             join "," l = value
         end.
Proof.
  exact (get_key_values_invariant
           [("page[number]", "1"); ("page[size]", "10,20");
            ("sort", "name"); ("pages[number]", "3")] "page"
           [("number", Scalar "3"); ("size", Multi ["10"; "20"])] eq_refl).
Defined.

(* ================================================================== *)
(** ** Further properties of the managed-parameter view *)

Section QuerystringMore.

Variable qs : Dict.t string.

Lemma filter_all {A} (f : A -> bool) (l : list A) :
  forallb f l = true -> filter f l = l.
Proof.
  induction l as [|a l IH]; simpl; [reflexivity|].
  destruct (f a); simpl; [|discriminate]. intros H. now rewrite IH.
Qed.

Lemma querystring_from_closed (items : Dict.t string) :
  querystring_from qs items =
  if forallb managed items then Ok items
  else match _get_key_values qs "filter[" with
       | Raise e => Raise e
       | Ok r => Ok (if Dict.nonempty r then items else filter managed items)
       end.
Proof.
  induction items as [|[key value] items IH]; [reflexivity|].
  cbn [querystring_from forallb filter]. rewrite IH.
  change (managed (key, value)) with (Py.startswith_any key MANAGED_KEYS).
  destruct (Py.startswith_any key MANAGED_KEYS); cbn [bind andb].
  - destruct (forallb managed items); cbn [bind]; [reflexivity|].
    destruct (_get_key_values qs "filter[") as [r|e]; cbn [bind]; [|reflexivity].
    now destruct (Dict.nonempty r).
  - destruct (_get_key_values qs "filter[") as [r|e]; cbn [bind]; [|reflexivity].
    destruct (forallb managed items) eqn:Hall; cbn [bind].
    + rewrite (filter_all _ _ Hall). now destruct (Dict.nonempty r).
    + now destruct (Dict.nonempty r).
Qed.

Lemma querystring_closed :
  querystring qs =
  if forallb managed qs then Ok qs
  else match _get_key_values qs "filter[" with
       | Raise e => Raise e
       | Ok r => Ok (if Dict.nonempty r then qs else filter managed qs)
       end.
Proof. apply querystring_from_closed. Qed.

End QuerystringMore.

(** X4.  A view that the managed-parameter accessor returns is the mapping
    itself or the mapping without the keys that start with no managed name:
    its entries are entries of the mapping, unchanged, and every entry whose
    key starts with a managed name is in it. *)
Theorem querystring_view (qs view : Dict.t string) :
  querystring qs = Ok view ->
  (view = qs \/ view = filter managed qs)
  /\ (forall kv, In kv view -> In kv qs)
  /\ (forall kv, In kv qs -> managed kv = true -> In kv view).
Proof.
  intros Hq. rewrite querystring_closed in Hq.
  assert (view = qs \/ view = filter managed qs) as Hview.
  { destruct (forallb managed qs); [injection Hq as <-; now left|].
    destruct (_get_key_values qs "filter[") as [r|e]; [|discriminate].
    injection Hq as <-. destruct (Dict.nonempty r); auto. }
  split; [exact Hview|].
  destruct Hview as [->| ->]; split; auto.
  - intros kv Hin. apply filter_In in Hin. tauto.
  - intros kv Hin Hm. apply filter_In. now split.
Qed.

Lemma querystring_view_witness :
  ([("sort", "name"); ("page[size]", "10")]
   = [("sort", "name"); ("utm_source", "x"); ("page[size]", "10")]
   \/ [("sort", "name"); ("page[size]", "10")]
      = filter managed [("sort", "name"); ("utm_source", "x"); ("page[size]", "10")])
  /\ (forall kv, In kv [("sort", "name"); ("page[size]", "10")] ->
        In kv [("sort", "name"); ("utm_source", "x"); ("page[size]", "10")])
  /\ (forall kv, In kv [("sort", "name"); ("utm_source", "x"); ("page[size]", "10")] ->
        managed kv = true -> In kv [("sort", "name"); ("page[size]", "10")]).
Proof.
  exact (querystring_view [("sort", "name"); ("utm_source", "x"); ("page[size]", "10")]
           [("sort", "name"); ("page[size]", "10")] eq_refl).
Defined.

(** X5.  The managed-parameter view is idempotent: the view of a view is
    that view. *)
Theorem querystring_idempotent (qs view : Dict.t string) :
  querystring qs = Ok view -> querystring view = Ok view.
Proof.
  intros Hq. rewrite querystring_closed in Hq. rewrite querystring_closed.
  destruct (forallb managed qs) eqn:Hall.
  - injection Hq as <-. now rewrite Hall.
  - destruct (_get_key_values qs "filter[") as [r|e] eqn:Hr; [|discriminate].
    injection Hq as <-. destruct (Dict.nonempty r) eqn:Hne.
    + now rewrite Hall, Hr, Hne.
    + assert (forallb managed (filter managed qs) = true) as ->; [|reflexivity].
      apply forallb_forall. intros kv Hin. apply filter_In in Hin. tauto.
Qed.

Lemma querystring_idempotent_witness :
  querystring [("sort", "name"); ("page[size]", "10")]
  = Ok [("sort", "name"); ("page[size]", "10")].
Proof.
  exact (querystring_idempotent
           [("sort", "name"); ("utm_source", "x"); ("page[size]", "10")]
           [("sort", "name"); ("page[size]", "10")] eq_refl).
Defined.

(** X6.  The managed-parameter accessor fails exactly when the mapping
    holds a key that starts with no managed name and a key under
    [filter[] without a closing bracket; the error is then BadRequest, and
    it reports the first such key.  A mapping of managed keys only never
    fails, whatever its [filter[] keys look like. *)
Theorem querystring_failure (qs : Dict.t string) (e : exn) :
  querystring qs = Raise e <->
  (exists kv, In kv qs /\ managed kv = false)
  /\ exists key value,
       find (offending "filter[") qs = Some (key, value) /\
       e = BadRequest "Parse error" key.
Proof.
  rewrite querystring_closed.
  pose proof (get_key_values_from_find "filter[" qs []) as Hfind.
  fold (_get_key_values qs "filter[") in Hfind.
  destruct (forallb managed qs) eqn:Hall.
  - split; [discriminate|]. intros [(kv & Hin & Hm) _].
    rewrite forallb_forall in Hall. rewrite (Hall kv Hin) in Hm. discriminate.
  - assert (exists kv, In kv qs /\ managed kv = false) as Hex.
    { clear Hfind. induction qs as [|kv l IH]; [discriminate|].
      simpl in Hall. destruct (managed kv) eqn:E.
      - destruct (IH Hall) as (kv' & Hin & Hm). exists kv'. split; [now right | exact Hm].
      - exists kv. split; [now left | exact E]. }
    destruct (find (offending "filter[") qs) as [[key value]|].
    + rewrite Hfind. split.
      * intros [= <-]. split; [exact Hex|]. now exists key, value.
      * intros [_ (key' & value' & [= <- <-] & ->)]. reflexivity.
    + destruct Hfind as [r ->]. split; [discriminate|].
      intros [_ (key' & value' & Hnone & _)]. discriminate.
Qed.

Lemma querystring_failure_witness :
  querystring [("filter[name", "bob"); ("utm_source", "x")]
  = Raise (BadRequest "Parse error" "filter[name")
  /\ querystring [("filter[name", "bob"); ("sort", "x")]
     = Ok [("filter[name", "bob"); ("sort", "x")].
Proof.
  split; [|reflexivity].
  apply (proj2 (querystring_failure [("filter[name", "bob"); ("utm_source", "x")]
                  (BadRequest "Parse error" "filter[name"))).
  split.
  - exists ("utm_source", "x"). split; [right; now left | reflexivity].
  - exists "filter[name", "bob". split; reflexivity.
Defined.

(* ================================================================== *)
(** ** Further properties of the filters accessor *)

(** X7.  The filters accessor fails in three ways only: with
    InvalidFilters (the parameter did not decode, or decoded to a value that
    cannot be iterated); with the exception that [json.loads] itself raises
    when it is neither a ValueError nor a TypeError (a RecursionError on a
    text nested too deep), which the accessor does not catch; or with the
    BadRequest of the extraction, which reports the first key under
    [filter[] without a closing bracket.  The last is only possible when
    the [filter] parameter is absent or decoded to a value that can be
    iterated: the decoding is checked first. *)
Theorem filters_errors (json_loads : string -> result pyval) (qs : Dict.t string)
    (e : exn) :
  filters qs json_loads = Raise e ->
  e = InvalidFilters "Parse error"
  \/ (exists raw,
        Dict.get "filter" qs = Some raw /\ json_loads raw = Raise e /\
        e <> ValueError /\ e <> TypeError)
  \/ ((exists key value,
         find (offending "filter[") qs = Some (key, value) /\
         e = BadRequest "Parse error" key)
      /\ (Dict.get "filter" qs = None
          \/ exists raw decoded l,
               Dict.get "filter" qs = Some raw /\ json_loads raw = Ok decoded /\
               py_iter decoded = Some l)).
Proof.
  unfold filters. intros H.
  assert (forall results : list pyval,
             (kv <- _get_key_values qs "filter[" ;;
              if Dict.nonempty kv
              then kv' <- _get_key_values qs "filter[" ;;
                   Ok (results ++ _simple_filters kv')%list
              else Ok results) = Raise e ->
             exists key value,
               find (offending "filter[") qs = Some (key, value) /\
               e = BadRequest "Parse error" key) as Hext.
  { intros results. pose proof (get_key_values_from_find "filter[" qs []) as Hfind.
    fold (_get_key_values qs "filter[") in Hfind.
    destruct (find (offending "filter[") qs) as [[key value]|].
    - rewrite Hfind. cbn [bind]. intros [= <-]. now exists key, value.
    - destruct Hfind as [r ->]. cbn [bind]. destruct (Dict.nonempty r); discriminate. }
  destruct (Dict.get "filter" qs) as [raw|] eqn:Hget.
  - destruct (json_loads raw) as [decoded|e0] eqn:Hdec.
    + destruct (py_iter decoded) as [l|] eqn:Hiter.
      * cbn [bind] in H. right. right. split; [now apply (Hext l)|].
        right. now exists raw, decoded, l.
      * cbn [bind] in H. left. congruence.
    + destruct e0; cbn [bind] in H; injection H as <-;
        try (left; reflexivity);
        right; left; exists raw; repeat split; auto; discriminate.
  - cbn [bind] in H. right. right. split; [now apply (Hext [])|]. now left.
Qed.

Lemma filters_errors_witness :
  BadRequest "Parse error" "filter[name" = InvalidFilters "Parse error"
  \/ (exists raw,
        Dict.get "filter" [("filter[name", "bob")] = Some raw /\
        json_loads_examples raw = Raise (BadRequest "Parse error" "filter[name") /\
        BadRequest "Parse error" "filter[name" <> ValueError /\
        BadRequest "Parse error" "filter[name" <> TypeError)
  \/ ((exists key value,
         find (offending "filter[") [("filter[name", "bob")] = Some (key, value) /\
         BadRequest "Parse error" "filter[name" = BadRequest "Parse error" key)
      /\ (Dict.get "filter" [("filter[name", "bob")] = None
          \/ exists raw decoded l,
               Dict.get "filter" [("filter[name", "bob")] = Some raw /\
               json_loads_examples raw = Ok decoded /\
               py_iter decoded = Some l)).
Proof.
  exact (filters_errors json_loads_examples [("filter[name", "bob")]
           (BadRequest "Parse error" "filter[name") eq_refl).
Defined.

(** X8.  A list that the filters accessor returns is made of the elements
    that the decoded [filter] parameter yields (none when the parameter is
    absent), followed by one equality condition per sub-key of the
    extracted dict; the sub-keys are distinct, so two raw keys with the same
    bracketed text give one condition. *)
Theorem filters_result_shape (json_loads : string -> result pyval)
    (qs : Dict.t string) (results : list pyval) :
  filters qs json_loads = Ok results ->
  exists decoded kv,
    results = (decoded ++ _simple_filters kv)%list
    /\ _get_key_values qs "filter[" = Ok kv
    /\ Dict.wf kv
    /\ length results = (length decoded + length kv)%nat
    /\ match Dict.get "filter" qs with
       | None => decoded = []
       | Some raw =>
           exists v, json_loads raw = Ok v /\ py_iter v = Some decoded
       end.
Proof.
  unfold filters. intros H.
  assert (exists decoded,
             match Dict.get "filter" qs with
             | None => decoded = []
             | Some raw => exists v, json_loads raw = Ok v /\ py_iter v = Some decoded
             end
             /\ (kv <- _get_key_values qs "filter[" ;;
                 if Dict.nonempty kv
                 then kv' <- _get_key_values qs "filter[" ;;
                      Ok (decoded ++ _simple_filters kv')%list
                 else Ok decoded) = Ok results) as (decoded & Hjson & Hrest).
  { destruct (Dict.get "filter" qs) as [raw|].
    - destruct (json_loads raw) as [v|e0]; [|destruct e0; discriminate].
      destruct (py_iter v) as [l|] eqn:Hiter; [|discriminate].
      exists l. split; [now exists v | exact H].
    - exists []. split; [reflexivity | exact H]. }
  clear H. destruct (_get_key_values qs "filter[") as [kv|e] eqn:Hkv;
    [|discriminate].
  exists decoded, kv. cbn [bind] in Hrest.
  assert (results = (decoded ++ _simple_filters kv)%list) as ->.
  { destruct kv; cbn [Dict.nonempty bind] in Hrest.
    - injection Hrest as <-. simpl. now rewrite app_nil_r.
    - now injection Hrest as <-. }
  repeat split; auto.
  - exact (get_key_values_wf _ _ _ Hkv).
  - unfold _simple_filters. now rewrite length_app, length_map.
Qed.

Lemma filters_result_shape_witness :
  exists decoded kv,
    [PDict [("name", PStr "age"); ("op", PStr "eq"); ("val", PInt 30)];
     PDict [("name", PStr "name"); ("op", PStr "eq"); ("val", PStr "eve")]]
    = (decoded ++ _simple_filters kv)%list
    /\ _get_key_values [("filter", age_filter_text); ("filter[name]", "bob");
                        ("filter[name]x", "eve")] "filter[" = Ok kv
    /\ Dict.wf kv
    /\ length [PDict [("name", PStr "age"); ("op", PStr "eq"); ("val", PInt 30)];
               PDict [("name", PStr "name"); ("op", PStr "eq"); ("val", PStr "eve")]]
       = (length decoded + length kv)%nat
    /\ match Dict.get "filter" [("filter", age_filter_text); ("filter[name]", "bob");
                                ("filter[name]x", "eve")] with
       | None => decoded = []
       | Some raw =>
           exists v, json_loads_examples raw = Ok v /\ py_iter v = Some decoded
       end.
Proof.
  exact (filters_result_shape json_loads_examples
           [("filter", age_filter_text); ("filter[name]", "bob");
            ("filter[name]x", "eve")]
           [PDict [("name", PStr "age"); ("op", PStr "eq"); ("val", PInt 30)];
            PDict [("name", PStr "name"); ("op", PStr "eq"); ("val", PStr "eve")]]
           eq_refl).
Defined.

(* ================================================================== *)
(** ** Further properties of the pagination accessor *)

Lemma nodup_two_keys (l : list string) :
  NoDup l -> (forall k, In k l -> k = "number" \/ k = "size") -> (length l <= 2)%nat.
Proof.
  intros Hnd Hin.
  apply (NoDup_incl_length (l' := ["number"; "size"]) Hnd).
  intros k Hk. destruct (Hin k Hk) as [->| ->]; simpl; auto.
Qed.

(** X9.  A dict that the pagination accessor returns is the dict extracted
    under [page]; it has at most the two sub-keys [number] and [size], each
    once, with values that are strings parsing as integers; when disabling
    pagination is disallowed its size is not 0, and when a maximum is
    configured and the size is present, the size is at most the maximum. *)
Theorem pagination_postcondition (qs : Dict.t string) (cfg : config)
    (r : Dict.t qvalue) :
  pagination qs cfg = Ok r ->
  _get_key_values qs "page" = Ok r
  /\ Dict.wf r /\ (length r <= 2)%nat
  /\ (forall k v, In (k, v) r ->
        (k = "number" \/ k = "size") /\
        exists s n, v = Scalar s /\ Py.int s = Some n)
  /\ (ALLOW_DISABLE_PAGINATION cfg = Some false -> page_size r <> 0%Z)
  /\ (forall max, MAX_PAGE_SIZE cfg = Some max -> Dict.mem "size" r = true ->
        (page_size r <= max)%Z).
Proof.
  intros Hp. destruct (pagination_ok_inv _ _ _ Hp) as [Hr Hcheck].
  pose proof (get_key_values_wf _ _ _ Hr) as Hwf.
  pose proof (check_page_ok _ _ Hcheck) as Hitems.
  rewrite (pagination_checked qs cfg r Hr Hcheck) in Hp.
  split; [exact Hr|]. split; [exact Hwf|]. split; [|split; [exact Hitems|]].
  - rewrite <- (length_map fst). apply nodup_two_keys; [exact Hwf|].
    intros k Hk. apply in_map_iff in Hk. destruct Hk as ([k' v] & <- & Hin).
    now destruct (Hitems _ _ Hin).
  - split.
    + intros Hflag Hzero. unfold disabling_disallowed in Hp.
      rewrite Hflag, Hzero in Hp. discriminate.
    + intros max Hmax Hmem.
      destruct (disabling_disallowed cfg && Z.eqb (page_size r) 0); [discriminate|].
      rewrite Hmax, Hmem in Hp. cbn [andb] in Hp.
      destruct (Z.gtb_spec (page_size r) max); [discriminate | lia].
Qed.

Lemma pagination_postcondition_witness :
  _get_key_values [("page[number]", "3"); ("page[size]", "100")] "page"
  = Ok [("number", Scalar "3"); ("size", Scalar "100")]
  /\ Dict.wf [("number", Scalar "3"); ("size", Scalar "100")]
  /\ (length [("number", Scalar "3"); ("size", Scalar "100")] <= 2)%nat
  /\ (forall k v, In (k, v) [("number", Scalar "3"); ("size", Scalar "100")] ->
        (k = "number" \/ k = "size") /\
        exists s n, v = Scalar s /\ Py.int s = Some n)
  /\ (Some false = Some false ->
      page_size [("number", Scalar "3"); ("size", Scalar "100")] <> 0%Z)
  /\ (forall max, Some 100%Z = Some max ->
        Dict.mem "size" [("number", Scalar "3"); ("size", Scalar "100")] = true ->
        (page_size [("number", Scalar "3"); ("size", Scalar "100")] <= max)%Z).
Proof.
  exact (pagination_postcondition [("page[number]", "3"); ("page[size]", "100")]
           {| ALLOW_DISABLE_PAGINATION := Some false; MAX_PAGE_SIZE := Some 100%Z;
              MAX_INCLUDE_DEPTH := None |}
           [("number", Scalar "3"); ("size", Scalar "100")] eq_refl).
Defined.

(** X10.  On a mapping with no key under [page] the pagination accessor
    returns the empty dict under every configuration: the size then counts
    as 1 for the policy on disabling and is not compared with the
    maximum. *)
Theorem pagination_without_page_keys (qs : Dict.t string) (cfg : config) :
  (forall key value, In (key, value) qs -> Py.startswith key "page" = false) ->
  pagination qs cfg = Ok [].
Proof.
  intros Hskip.
  assert (_get_key_values qs "page" = Ok []) as Hr
    by now apply get_key_values_from_skip.
  rewrite (pagination_checked qs cfg [] Hr eq_refl).
  change (page_size []) with 1%Z. rewrite andb_false_r.
  now destruct (MAX_PAGE_SIZE cfg).
Qed.

Lemma pagination_without_page_keys_witness :
  pagination [("sort", "name"); ("include", "author")]
    {| ALLOW_DISABLE_PAGINATION := Some false; MAX_PAGE_SIZE := Some 0%Z;
       MAX_INCLUDE_DEPTH := None |}
  = Ok [].
Proof.
  apply pagination_without_page_keys.
  intros key value [[= <- <-]|[[= <- <-]|[]]]; reflexivity.
Defined.

(** X11.  The pagination accessor fails with BadRequest, or else with the
    TypeError of [int] on a list, and this only when some value under
    [page] holds a comma. *)
Theorem pagination_errors (qs : Dict.t string) (cfg : config) (e : exn) :
  pagination qs cfg = Raise e ->
  is_BadRequest e
  \/ (e = TypeError
      /\ exists key value,
           In (key, value) qs /\ Py.startswith key "page" = true /\
           Py.contains "," value = true).
Proof.
  intros Hp.
  pose proof (get_key_values_from_find "page" qs []) as Hfind.
  fold (_get_key_values qs "page") in Hfind.
  destruct (find (offending "page") qs) as [[key value]|].
  - unfold pagination in Hp. rewrite Hfind in Hp. cbn [bind] in Hp.
    left. injection Hp as <-. red. eauto.
  - destruct Hfind as [r Hr].
    destruct (check_page r) as [[]|e'] eqn:Hcheck.
    + rewrite (pagination_checked qs cfg r Hr Hcheck) in Hp. left.
      destruct (disabling_disallowed cfg && Z.eqb (page_size r) 0).
      * injection Hp as <-. red. eauto.
      * destruct (MAX_PAGE_SIZE cfg) as [max|]; [|discriminate].
        destruct (Dict.mem "size" r && Z.gtb (page_size r) max); [|discriminate].
        injection Hp as <-. red. eauto.
    + rewrite (pagination_check_raise qs cfg r e' Hr Hcheck) in Hp.
      injection Hp as <-.
      destruct (check_page_raise _ _ Hcheck) as [Hbad| ->]; [now left|].
      right. split; [reflexivity|].
      clear - Hr Hcheck. revert Hcheck.
      assert (forall k v, In (k, v) r ->
                exists key value, In (key, value) qs /\
                  Py.startswith key "page" = true /\ v = item_value value) as Horigin.
      { intros k v Hin.
        destruct (get_key_values_from_values _ _ _ _ _ _ Hr Hin) as [[]|H]. exact H. }
      clear Hr. induction r as [|[k v] r IH]; cbn [check_page]; [discriminate|].
      destruct (str_in k ["number"; "size"]); cbn [negb]; [|discriminate].
      destruct v as [s|l]; cbn [int_qvalue].
      * destruct (Py.int s); [|discriminate].
        apply IH. intros k' v' Hin. apply (Horigin k' v'). now right.
      * intros _. destruct (Horigin k (Multi l)) as (key & value & H1 & H2 & H3);
          [now left|].
        exists key, value. repeat split; auto.
        unfold item_value in H3. destruct (Py.contains "," value); [reflexivity|].
        discriminate.
Qed.

Lemma pagination_errors_witness :
  is_BadRequest TypeError
  \/ (TypeError = TypeError
      /\ exists key value,
           In (key, value) [("page[number]", "1,2")] /\
           Py.startswith key "page" = true /\ Py.contains "," value = true).
Proof.
  exact (pagination_errors [("page[number]", "1,2")] default_config TypeError eq_refl).
Defined.

(** X12.  Once the values under [page] have passed the loop, the policy on
    disabling is applied before the maximum: (1) a size of 0 with disabling
    disallowed fails with the error on disabling, whatever the maximum;
    (2) otherwise a present size above the maximum fails with the error that
    names the maximum; (3) otherwise the dict is returned: a size equal to
    the maximum is accepted, and an absent size is not compared with the
    maximum. *)
Theorem pagination_policy (qs : Dict.t string) (cfg : config) (r : Dict.t qvalue) :
  _get_key_values qs "page" = Ok r ->
  check_page r = Ok tt ->
  (ALLOW_DISABLE_PAGINATION cfg = Some false -> page_size r = 0%Z ->
   pagination qs cfg
   = Raise (BadRequest "You are not allowed to disable pagination" "page[size]"))
  /\ (forall max,
        (ALLOW_DISABLE_PAGINATION cfg <> Some false \/ page_size r <> 0%Z) ->
        MAX_PAGE_SIZE cfg = Some max -> Dict.mem "size" r = true ->
        (max < page_size r)%Z ->
        pagination qs cfg
        = Raise (BadRequest ("Maximum page size is " ++ Py.str_of_int max) "page[size]"))
  /\ ((ALLOW_DISABLE_PAGINATION cfg <> Some false \/ page_size r <> 0%Z) ->
      (forall max, MAX_PAGE_SIZE cfg = Some max ->
         Dict.mem "size" r = false \/ (page_size r <= max)%Z) ->
      pagination qs cfg = Ok r).
Proof.
  intros Hr Hcheck. rewrite (pagination_checked qs cfg r Hr Hcheck).
  assert ((ALLOW_DISABLE_PAGINATION cfg <> Some false \/ page_size r <> 0%Z) ->
          disabling_disallowed cfg && Z.eqb (page_size r) 0 = false) as Hoff.
  { unfold disabling_disallowed. intros [Hflag|Hsize].
    - destruct (ALLOW_DISABLE_PAGINATION cfg) as [[|]|]; try reflexivity. congruence.
    - apply andb_false_iff. right. now apply Z.eqb_neq. }
  split; [|split].
  - intros Hflag Hzero. unfold disabling_disallowed. now rewrite Hflag, Hzero.
  - intros max Hpol Hmax Hmem Hgt. rewrite (Hoff Hpol), Hmax, Hmem. cbn [andb].
    destruct (Z.gtb_spec (page_size r) max); [reflexivity | lia].
  - intros Hpol Hle. rewrite (Hoff Hpol).
    destruct (MAX_PAGE_SIZE cfg) as [max|]; [|reflexivity].
    destruct (Hle max eq_refl) as [->|Hsize]; [reflexivity|].
    destruct (Z.gtb_spec (page_size r) max); [lia|]. now rewrite andb_false_r.
Qed.

Lemma pagination_policy_witness :
  pagination [("page[size]", "0")]
    {| ALLOW_DISABLE_PAGINATION := Some false; MAX_PAGE_SIZE := Some (-1)%Z;
       MAX_INCLUDE_DEPTH := None |}
  = Raise (BadRequest "You are not allowed to disable pagination" "page[size]")
  /\ pagination [("page[size]", "101")]
       {| ALLOW_DISABLE_PAGINATION := Some false; MAX_PAGE_SIZE := Some 100%Z;
          MAX_INCLUDE_DEPTH := None |}
     = Raise (BadRequest "Maximum page size is 100" "page[size]")
  /\ pagination [("page[size]", "100")]
       {| ALLOW_DISABLE_PAGINATION := Some false; MAX_PAGE_SIZE := Some 100%Z;
          MAX_INCLUDE_DEPTH := None |}
     = Ok [("size", Scalar "100")].
Proof.
  split; [|split].
  - apply (proj1 (pagination_policy [("page[size]", "0")]
                    {| ALLOW_DISABLE_PAGINATION := Some false;
                       MAX_PAGE_SIZE := Some (-1)%Z; MAX_INCLUDE_DEPTH := None |}
                    [("size", Scalar "0")] eq_refl eq_refl)); reflexivity.
  - apply (proj1 (proj2 (pagination_policy [("page[size]", "101")]
                           {| ALLOW_DISABLE_PAGINATION := Some false;
                              MAX_PAGE_SIZE := Some 100%Z; MAX_INCLUDE_DEPTH := None |}
                           [("size", Scalar "101")] eq_refl eq_refl)) 100%Z);
      try reflexivity.
    right. discriminate.
  - apply (proj2 (proj2 (pagination_policy [("page[size]", "100")]
                           {| ALLOW_DISABLE_PAGINATION := Some false;
                              MAX_PAGE_SIZE := Some 100%Z; MAX_INCLUDE_DEPTH := None |}
                           [("size", Scalar "100")] eq_refl eq_refl))).
    + right. discriminate.
    + intros max [= <-]. right. discriminate.
Defined.

(* ================================================================== *)
(** ** Further properties of the fields accessor *)

Section FieldsMore.

Variable get_schema_from_type : string -> result schema.

Lemma check_declared_first (sch : schema) (l : list string) :
  check_declared sch l =
  match first_undeclared sch l with
  | Some obj => Raise (InvalidField (__name__ sch ++ " has no attribute " ++ obj))
  | None => Ok tt
  end.
Proof.
  unfold first_undeclared. induction l as [|obj l IH]; [reflexivity|].
  cbn [check_declared find].
  now destruct (negb (Dict.mem obj (_declared_fields sch))).
Qed.

Lemma check_fields_ok (d : Dict.t qvalue) :
  check_fields get_schema_from_type d = Ok tt ->
  forall k v, In (k, v) d ->
    exists sch, get_schema_from_type k = Ok sch /\
      forall obj, In obj (iter_qvalue v) -> Dict.mem obj (_declared_fields sch) = true.
Proof.
  induction d as [|[k0 v0] d IH]; cbn [check_fields]; [simpl; tauto|].
  destruct (get_schema_from_type k0) as [sch|e] eqn:Hsch; cbn [bind]; [|discriminate].
  destruct (check_declared_cases get_schema_from_type sch (iter_qvalue v0))
    as [[Hok Hall]|(obj & _ & _ & Hr)]; rewrite ?Hok, ?Hr; cbn [bind];
    [|discriminate].
  intros H k v [[= <- <-]|Hin]; [now exists sch | now apply IH].
Qed.

Lemma check_fields_raise (d : Dict.t qvalue) (e : exn) :
  check_fields get_schema_from_type d = Raise e ->
  (exists detail, e = InvalidField detail)
  \/ (exists k v, In (k, v) d /\ get_schema_from_type k = Raise e).
Proof.
  induction d as [|[k0 v0] d IH]; cbn [check_fields]; [discriminate|].
  destruct (get_schema_from_type k0) as [sch|e0] eqn:Hsch; cbn [bind].
  - destruct (check_declared_cases get_schema_from_type sch (iter_qvalue v0))
      as [[Hok Hall]|(obj & _ & _ & Hr)]; rewrite ?Hok, ?Hr; cbn [bind].
    + intros H. destruct (IH H) as [Hf|(k & v & Hin & Hk)]; [now left|].
      right. exists k, v. split; [now right | exact Hk].
    + intros [= <-]. left. eauto.
  - intros [= <-]. right. exists k0, v0. split; [now left | exact Hsch].
Qed.

End FieldsMore.

(** X13.  The fields accessor fails in three ways only: with the
    BadRequest of the extraction, which reports the first key under [fields]
    that lacks a bracket; with InvalidField; or with the exception that the
    schema lookup raises for one of the requested resource types. *)
Theorem fields_errors (get_schema_from_type : string -> result schema)
    (qs : Dict.t string) (e : exn) :
  fields qs get_schema_from_type = Raise e ->
  (exists key value,
      find (offending "fields") qs = Some (key, value) /\
      e = BadRequest "Parse error" key)
  \/ (exists detail, e = InvalidField detail)
  \/ (exists kv resource_type value,
        _get_key_values qs "fields" = Ok kv /\ In (resource_type, value) kv /\
        get_schema_from_type resource_type = Raise e).
Proof.
  unfold fields. intros H.
  pose proof (get_key_values_from_find "fields" qs []) as Hfind.
  fold (_get_key_values qs "fields") in Hfind.
  destruct (find (offending "fields") qs) as [[key value]|].
  - rewrite Hfind in H. cbn [bind] in H. injection H as <-. left. now exists key, value.
  - destruct Hfind as [kv Hkv]. rewrite Hkv in H. cbn [bind] in H.
    rewrite (listify_normalized kv (get_key_values_wf _ _ _ Hkv)) in H.
    destruct (check_fields get_schema_from_type (normalized kv)) as [[]|e'] eqn:Hc;
      cbn [bind] in H; [discriminate|]. injection H as <-.
    destruct (check_fields_raise _ _ _ Hc) as [Hf|(k & v & Hin & Hk)];
      [right; now left|].
    right. right. unfold normalized in Hin. apply in_map_iff in Hin.
    destruct Hin as ([k' v'] & [= <- <-] & Hin). exists kv, k', v'. auto.
Qed.

Lemma fields_errors_witness :
  (exists key value,
      find (offending "fields") [("fields[person]", "name"); ("fields[robot]", "arm")]
      = Some (key, value) /\
      Exception "no schema for type robot" = BadRequest "Parse error" key)
  \/ (exists detail, Exception "no schema for type robot" = InvalidField detail)
  \/ (exists kv resource_type value,
        _get_key_values [("fields[person]", "name"); ("fields[robot]", "arm")] "fields"
        = Ok kv /\ In (resource_type, value) kv /\
        example_schema_from_type resource_type
        = Raise (Exception "no schema for type robot")).
Proof.
  exact (fields_errors example_schema_from_type
           [("fields[person]", "name"); ("fields[robot]", "arm")]
           (Exception "no schema for type robot") eq_refl).
Defined.

(** X14.  A dict that the fields accessor returns is the extracted dict in
    normal form: every value is a list, no list is empty, every resource
    type has a schema and every field of its list is declared on that
    schema. *)
Theorem fields_postcondition (get_schema_from_type : string -> result schema)
    (qs : Dict.t string) (r : Dict.t qvalue) :
  fields qs get_schema_from_type = Ok r ->
  exists kv,
    _get_key_values qs "fields" = Ok kv /\ r = normalized kv
    /\ Dict.wf r
    /\ forall resource_type v, In (resource_type, v) r ->
         exists l sch,
           v = Multi l /\ l <> [] /\
           get_schema_from_type resource_type = Ok sch /\
           forall obj, In obj l -> Dict.mem obj (_declared_fields sch) = true.
Proof.
  unfold fields. intros H.
  destruct (_get_key_values qs "fields") as [kv|e] eqn:Hkv; cbn [bind] in H;
    [|discriminate].
  pose proof (get_key_values_wf _ _ _ Hkv) as Hwf.
  rewrite (listify_normalized kv Hwf) in H.
  destruct (check_fields get_schema_from_type (normalized kv)) as [[]|e] eqn:Hc;
    cbn [bind] in H; [|discriminate]. injection H as <-.
  exists kv. split; [reflexivity|]. split; [reflexivity|]. split.
  - unfold Dict.wf. now rewrite keys_normalized.
  - intros t v Hin.
    destruct (check_fields_ok _ _ Hc _ _ Hin) as (sch & Hsch & Hall).
    unfold normalized in Hin. apply in_map_iff in Hin.
    destruct Hin as ([k' v'] & [= <- <-] & Hin).
    exists (as_list v'), sch. repeat split; auto.
    destruct (get_key_values_from_values _ _ _ _ _ _ Hkv Hin)
      as [[]|(key & value & _ & _ & ->)].
    unfold item_value. destruct (Py.contains "," value); simpl; [|discriminate].
    apply split_not_nil.
Qed.

Lemma fields_postcondition_witness :
  exists kv,
    _get_key_values [("fields[person]", "name,email")] "fields" = Ok kv
    /\ [("person", Multi ["name"; "email"])] = normalized kv
    /\ Dict.wf [("person", Multi ["name"; "email"])]
    /\ forall resource_type v, In (resource_type, v) [("person", Multi ["name"; "email"])] ->
         exists l sch,
           v = Multi l /\ l <> [] /\
           example_schema_from_type resource_type = Ok sch /\
           forall obj, In obj l -> Dict.mem obj (_declared_fields sch) = true.
Proof.
  exact (fields_postcondition example_schema_from_type
           [("fields[person]", "name,email")] [("person", Multi ["name"; "email"])]
           eq_refl).
Defined.

(** X15.  For a mapping that holds the one request [fields[type]=value],
    where the type has a schema: the requested fields are the parts of the
    value between commas (the value itself when it has no comma, also when
    it is empty); when one of them is not declared the accessor fails with
    InvalidField and the message names the schema and the first such field;
    otherwise it returns the type with the list of the fields. *)
Theorem fields_single_request (get_schema_from_type : string -> result schema)
    (resource_type value : string) (sch : schema) :
  Py.contains "]" resource_type = false ->
  get_schema_from_type resource_type = Ok sch ->
  fields [(bracket "fields" resource_type, value)] get_schema_from_type =
  let requested :=
    if Py.contains "," value then Py.split "," value else [value] in
  match first_undeclared sch requested with
  | Some obj => Raise (InvalidField (__name__ sch ++ " has no attribute " ++ obj))
  | None => Ok [(resource_type, Multi requested)]
  end.
Proof.
  intros Htype Hsch. unfold fields, _get_key_values.
  cbn [get_key_values_from].
  change (bracket "fields" resource_type) with ("fields" ++ ("[" ++ resource_type ++ "]")) at 1.
  rewrite startswith_app. cbn [negb].
  rewrite (item_key_bracket "fields" resource_type eq_refl eq_refl Htype).
  cbn [Dict.set bind]. unfold item_value.
  destruct (Py.contains "," value); cbn [listify Dict.set];
    rewrite ?String.eqb_refl; cbn [check_fields iter_qvalue];
    rewrite Hsch; cbn [bind]; rewrite check_declared_first;
    now destruct (first_undeclared sch _).
Qed.

Lemma fields_single_request_witness :
  fields [(bracket "fields" "person", "")] example_schema_from_type
  = Raise (InvalidField "PersonSchema has no attribute ")
  /\ fields [(bracket "fields" "person", "name,age,height")] example_schema_from_type
     = Raise (InvalidField "PersonSchema has no attribute age")
  /\ fields [(bracket "fields" "person", "email")] example_schema_from_type
     = Ok [("person", Multi ["email"])].
Proof.
  split; [|split].
  - exact (fields_single_request example_schema_from_type "person" ""
             person_schema eq_refl eq_refl).
  - exact (fields_single_request example_schema_from_type "person" "name,age,height"
             person_schema eq_refl eq_refl).
  - exact (fields_single_request example_schema_from_type "person" "email"
             person_schema eq_refl eq_refl).
Defined.

(* ================================================================== *)
(** ** Further properties of the include accessor *)

Section IncludeMore.

Lemma check_include_closed (max : Z) (s : string) :
  check_include max (Py.chars s) =
  if include_rejected max s then Raise (InvalidInclude (include_message max))
  else Ok tt.
Proof.
  unfold include_rejected. induction s as [|c s IH]; [reflexivity|].
  cbn [Py.chars check_include Py.contains]. rewrite IH. clear IH.
  change (String.eqb (String c s) "") with false. cbn [negb andb].
  cbn [Py.split]. destruct (Ascii.eqb c ".") eqn:Hc; cbn [length orb andb].
  - destruct (Z.gtb_spec (Z.of_nat 2) max), (Z.ltb_spec max 1), (Z.ltb_spec max 2);
      try lia; try reflexivity.
    rewrite !andb_false_r. reflexivity.
  - destruct (Z.gtb_spec (Z.of_nat 1) max), (Z.ltb_spec max 1), (Z.ltb_spec max 2);
      try lia; try reflexivity;
      rewrite ?andb_false_r, ?andb_true_r, ?orb_false_r; reflexivity.
Qed.

End IncludeMore.

(** X16.  What the include accessor does under a limit: it fails exactly
    when the parameter is present and either is not empty while the limit
    is below one, or holds a dot while the limit is below two; the error is
    InvalidInclude and names the limit.  In every other case it returns the
    parts of the parameter between commas, and the empty list when the
    parameter is absent or empty. *)
Theorem include_effective (qs : Dict.t string) (cfg : config) :
  (forall e,
      include qs cfg = Raise e <->
      exists max s,
        MAX_INCLUDE_DEPTH cfg = Some max /\ Dict.get "include" qs = Some s /\
        include_rejected max s = true /\ e = InvalidInclude (include_message max))
  /\ (forall l,
        include qs cfg = Ok l ->
        l = match Dict.get "include" qs with
            | Some s => if String.eqb s "" then [] else Py.split "," s
            | None => []
            end).
Proof.
  unfold include. split.
  - intros e. destruct (MAX_INCLUDE_DEPTH cfg) as [max|].
    + destruct (Dict.get "include" qs) as [s|].
      * rewrite check_include_closed.
        destruct (include_rejected max s) eqn:Hrej; cbn [bind].
        -- split.
           ++ intros [= <-]. now exists max, s.
           ++ intros (max' & s' & [= <-] & [= <-] & _ & ->). reflexivity.
        -- split; [discriminate|].
           intros (max' & s' & [= <-] & [= <-] & Hrej' & _). congruence.
      * cbn [check_include bind]. split; [discriminate|].
        intros (max' & s' & _ & Hs & _). discriminate.
    + cbn [bind]. split; [discriminate|].
      intros (max' & s' & Hm & _). discriminate.
  - intros l H.
    destruct (match MAX_INCLUDE_DEPTH cfg with
              | Some max => _
              | None => Ok tt
              end) as [[]|e]; cbn [bind] in H; [|discriminate].
    now injection H as <-.
Qed.

Lemma include_effective_witness :
  include [("include", "author,comments")]
    {| ALLOW_DISABLE_PAGINATION := None; MAX_PAGE_SIZE := None;
       MAX_INCLUDE_DEPTH := Some 0%Z |}
  = Raise (InvalidInclude (include_message 0))
  /\ include [("include", "author,comments")]
       {| ALLOW_DISABLE_PAGINATION := None; MAX_PAGE_SIZE := None;
          MAX_INCLUDE_DEPTH := Some 1%Z |}
     = Ok ["author"; "comments"].
Proof.
  split; [|reflexivity].
  apply (proj2 (proj1 (include_effective [("include", "author,comments")]
                         {| ALLOW_DISABLE_PAGINATION := None; MAX_PAGE_SIZE := None;
                            MAX_INCLUDE_DEPTH := Some 0%Z |})
                  (InvalidInclude (include_message 0)))).
  exists 0%Z, "author,comments". repeat split.
Defined.

(* ================================================================== *)
(** ** Further properties of the sorting accessor *)

(** X17.  When the schemas are dicts of declared fields, the sorting
    accessor fails with InvalidSort only: the lookups it makes on the
    schemas (the declared field of a join, the model field, the related
    schema) never raise. *)
Theorem sorting_errors (registry : nat -> schema) (self_schema : schema)
    (qs : Dict.t string) (e : exn) :
  (forall n, Dict.wf (_declared_fields (registry n))) ->
  Dict.wf (_declared_fields self_schema) ->
  sorting qs self_schema registry = Raise e ->
  exists detail, e = InvalidSort detail.
Proof.
  intros Hreg Hself. unfold sorting.
  destruct (Dict.get "sort" qs) as [[|c sort]|]; try discriminate.
  apply (sorting_from_raise registry Hreg self_schema Hself).
Qed.

Lemma sorting_errors_witness :
  exists detail,
    InvalidSort "ArticleSchema has no relationship editor" = InvalidSort detail.
Proof.
  exact (sorting_errors example_registry article_schema [("sort", "title,editor.name")]
           (InvalidSort "ArticleSchema has no relationship editor")
           example_registry_wf (example_registry_wf 1) eq_refl).
Defined.

(** X18.  A list that the sorting accessor returns has one entry per
    segment of the [sort] parameter (segments are what commas separate;
    nothing is merged or dropped); it is empty exactly when the parameter
    is absent or empty. *)
Theorem sorting_length (registry : nat -> schema) (self_schema : schema)
    (qs : Dict.t string) (items : list sort_item) :
  sorting qs self_schema registry = Ok items ->
  length items
  = match Dict.get "sort" qs with
    | Some sort => if String.eqb sort "" then 0%nat else length (Py.split "," sort)
    | None => 0%nat
    end
  /\ (items = [] <-> Dict.get "sort" qs = None \/ Dict.get "sort" qs = Some "").
Proof.
  unfold sorting. intros H.
  destruct (Dict.get "sort" qs) as [[|c sort]|].
  - injection H as <-. split; [reflexivity|]. split; auto.
  - apply sorting_from_ok in H. destruct H as (new & -> & Hall). cbn [app].
    pose proof (Forall2_length Hall) as Hlen.
    change (String.eqb (String c sort) "") with false. cbv iota.
    split; [now rewrite Hlen|]. split.
    + intros ->. pose proof (split_not_nil "," (String c sort)) as Hnil.
      destruct (Py.split "," (String c sort)); [contradiction | discriminate].
    + intros [H|H]; discriminate.
  - injection H as <-. split; [reflexivity|]. split; auto.
Qed.

Lemma sorting_length_witness :
  length [ {| sort_field_ := "title"; sort_order := "asc"; sort_nulls := None;
              sort_joins := [] |};
           {| sort_field_ := "title"; sort_order := "desc"; sort_nulls := None;
              sort_joins := [] |} ]
  = match Dict.get "sort" [("sort", "title,-title")] with
    | Some sort => if String.eqb sort "" then 0%nat else length (Py.split "," sort)
    | None => 0%nat
    end
  /\ ([ {| sort_field_ := "title"; sort_order := "asc"; sort_nulls := None;
           sort_joins := [] |};
        {| sort_field_ := "title"; sort_order := "desc"; sort_nulls := None;
           sort_joins := [] |} ] = [] <->
      Dict.get "sort" [("sort", "title,-title")] = None
      \/ Dict.get "sort" [("sort", "title,-title")] = Some "").
Proof.
  exact (sorting_length example_registry article_schema [("sort", "title,-title")]
           _ eq_refl).
Defined.

(* ================================================================== *)
(** ** The sort pattern *)

Section Regex.

Lemma orelse_some {A} (x y : option A) (a : A) :
  Re.orelse x y = Some a -> x = Some a \/ (x = None /\ y = Some a).
Proof. destruct x; simpl; intros H; [left; exact H | right; now split]. Qed.

Lemma firstn_consumed {A} (w s' : list A) :
  firstn (length (w ++ s') - length s') (w ++ s') = w.
Proof.
  rewrite length_app. replace (length w + length s' - length s')%nat with (length w) by lia.
  rewrite firstn_app, Nat.sub_diag, firstn_all. simpl. now rewrite app_nil_r.
Qed.

(** What the search finds is a text that the expression matches, at the
    head of the input; the continuation has accepted what follows. *)
Lemma exec_sound (r : Re.regex) :
  forall s caps k res,
    Re.exec r s caps k = Some res ->
    exists w s' caps',
      s = (w ++ s')%list /\ re_matches r w caps caps' /\ k s' caps' = Some res.
Proof.
  induction r as [c|p|r1 IH1 r2 IH2|r1 IH1 r2 IH2|r1 IH1|r1 IH1|n r1 IH1];
    intros s caps k res H; cbn [Re.exec] in H.
  - destruct s as [|d s]; [discriminate|].
    destruct (Ascii.eqb_spec d c) as [->|]; [|discriminate].
    exists [c], s, caps. repeat split; [constructor | exact H].
  - destruct s as [|d s]; [discriminate|].
    destruct (p d) eqn:Hp; [|discriminate].
    exists [d], s, caps. repeat split; [now constructor | exact H].
  - apply IH1 in H. destruct H as (w1 & s1 & c1 & -> & Hm1 & H).
    apply IH2 in H. destruct H as (w2 & s2 & c2 & -> & Hm2 & H).
    exists (w1 ++ w2)%list, s2, c2. rewrite <- app_assoc.
    repeat split; [econstructor; eauto | exact H].
  - apply orelse_some in H. destruct H as [H|[_ H]].
    + apply IH1 in H. destruct H as (w & s' & c' & -> & Hm & H).
      exists w, s', c'. repeat split; [now apply m_alt_l | exact H].
    + apply IH2 in H. destruct H as (w & s' & c' & -> & Hm & H).
      exists w, s', c'. repeat split; [now apply m_alt_r | exact H].
  - apply orelse_some in H. destruct H as [H|[_ H]].
    + apply IH1 in H. destruct H as (w & s' & c' & -> & Hm & H).
      exists w, s', c'. repeat split; [now apply m_opt_some | exact H].
    + exists [], s, caps. repeat split; [apply m_opt_none | exact H].
  - revert H. generalize (length s) at 1. intros fuel. revert s caps.
    induction fuel as [|fuel IHf]; intros s caps H.
    + exists [], s, caps. repeat split; [apply m_star_nil | exact H].
    + apply orelse_some in H. destruct H as [H|[_ H]].
      * apply IH1 in H. destruct H as (w1 & s1 & c1 & -> & Hm1 & H).
        destruct (Nat.ltb_spec (length s1) (length (w1 ++ s1))) as [Hlt|];
          [|discriminate].
        apply IHf in H. destruct H as (w2 & s2 & c2 & -> & Hm2 & H).
        exists (w1 ++ w2)%list, s2, c2. rewrite <- app_assoc.
        repeat split; [|exact H].
        apply m_star_cons with (c1 := c1); auto.
        intros ->. simpl in Hlt. lia.
      * exists [], s, caps. repeat split; [apply m_star_nil | exact H].
  - apply IH1 in H. destruct H as (w & s' & c' & -> & Hm & H).
    rewrite firstn_consumed in H.
    exists w, s', ((n, w) :: c'). repeat split; [now constructor | exact H].
Qed.

Lemma star_class_inv (p : ascii -> bool) (w : list ascii) c0 c1 :
  re_matches (Re.Star (Re.Class p)) w c0 c1 ->
  c1 = c0 /\ forallb p w = true.
Proof.
  remember (Re.Star (Re.Class p)) as r eqn:Hr. intros H.
  induction H as [| | | | | | | r c0 | r w1 w2 c0 c1 c2 H1 _ Hne H2 IH2 |];
    try discriminate.
  - now split.
  - injection Hr as ->. destruct (IH2 eq_refl) as [-> Hall].
    inversion H1; subst. split; [reflexivity|].
    simpl. now rewrite H0, Hall.
Qed.

Lemma string_app_assoc (a b c : string) : (a ++ b) ++ c = a ++ (b ++ c).
Proof. induction a as [|d a IH]; simpl; [reflexivity | now rewrite IH]. Qed.

Lemma string_of_list_ascii_app (a b : list ascii) :
  string_of_list_ascii (a ++ b) = string_of_list_ascii a ++ string_of_list_ascii b.
Proof. induction a as [|c a IH]; simpl; [reflexivity | now rewrite IH]. Qed.

Lemma word_string_of_list (d : ascii) (l : list ascii) :
  Re.word d = true -> forallb Re.word l = true ->
  word_string (string_of_list_ascii (d :: l)) = true.
Proof.
  intros Hd Hl. unfold word_string.
  rewrite list_ascii_of_string_of_list_ascii. simpl. now rewrite Hd, Hl.
Qed.

(** the repeated part of group 3: words, each followed by a dot *)
Lemma star_dotted_inv (w : list ascii) c0 c1 :
  re_matches
    (Re.Star (Re.Seq (Re.Seq (Re.Class Re.word) (Re.Star (Re.Class Re.word)))
                (Re.Lit "."))) w c0 c1 ->
  c1 = c0 /\
  exists ws,
    string_of_list_ascii w = dotted ws /\
    Forall (fun x => word_string x = true) ws.
Proof.
  remember (Re.Star (Re.Seq (Re.Seq (Re.Class Re.word) (Re.Star (Re.Class Re.word)))
                       (Re.Lit "."))) as r eqn:Hr.
  intros H.
  induction H as [| | | | | | | r c0 | r w1 w2 c0 c1 c2 H1 _ Hne H2 IH2 |];
    try discriminate.
  - split; [reflexivity|]. exists []. split; [reflexivity | constructor].
  - injection Hr as ->. destruct (IH2 eq_refl) as [-> (ws & Hws & Hall)].
    inversion H1 as [| |? ? wa wb ? ? ? Ha Hb| | | | | | |]; subst.
    inversion Hb; subst.
    inversion Ha as [| |? ? wc wd ? ? ? Hc Hd| | | | | | |]; subst.
    inversion Hc; subst.
    apply star_class_inv in Hd. destruct Hd as [-> Hd].
    split; [reflexivity|].
    exists (string_of_list_ascii (d :: wd) :: ws). split.
    + rewrite !string_of_list_ascii_app, Hws. cbn [dotted].
      rewrite !string_app_assoc. reflexivity.
    + constructor; [now apply word_string_of_list | exact Hall].
Qed.

Ltac invert_match :=
  match goal with
  | H : re_matches (Re.Lit _) _ _ _ |- _ => inversion H; clear H; subst
  | H : re_matches (Re.Class _) _ _ _ |- _ => inversion H; clear H; subst
  | H : re_matches (Re.Seq _ _) _ _ _ |- _ => inversion H; clear H; subst
  | H : re_matches (Re.Alt _ _) _ _ _ |- _ => inversion H; clear H; subst
  | H : re_matches (Re.Opt _) _ _ _ |- _ => inversion H; clear H; subst
  | H : re_matches (Re.Group _ _) _ _ _ |- _ => inversion H; clear H; subst
  end.

(** The groups of a match: what each one can be, and where the matched
    text sits in the segment. *)
Lemma pattern_match_sound (sort_field minus join_path schema_field : string)
    (nulls : option string) :
  pattern_match sort_field = Some (minus, nulls, join_path, schema_field) ->
  (minus = "" \/ minus = "-")
  /\ (nulls = None \/ nulls = Some "nullsfirst" \/ nulls = Some "nullslast")
  /\ (exists ws, join_path = dotted ws /\ Forall (fun w => word_string w = true) ws)
  /\ word_string schema_field = true
  /\ exists rest,
       sort_field = minus ++ nulls_text nulls ++ join_path ++ schema_field ++ rest.
Proof.
  unfold pattern_match, Re.match_. intros H.
  destruct (Re.exec pattern (list_ascii_of_string sort_field) []
              (fun _ caps => Some caps)) as [caps|] eqn:Hexec; [|discriminate].
  cbn [option_map] in H. unfold groups in H. injection H as <- <- <- <-.
  apply exec_sound in Hexec. destruct Hexec as (w & s' & caps' & Hs & Hm & [= ->]).
  assert (sort_field = string_of_list_ascii w ++ string_of_list_ascii s') as Hfield.
  { rewrite <- string_of_list_ascii_app, <- Hs.
    now rewrite string_of_list_ascii_of_string. }
  clear Hs. cbv [pattern Re.Plus Re.Str] in Hm.
  repeat invert_match;
    repeat match goal with
      | H : re_matches (Re.Star (Re.Class _)) _ _ _ |- _ =>
          apply star_class_inv in H; destruct H as [-> H]
      | H : re_matches (Re.Star (Re.Seq _ _)) _ _ _ |- _ =>
          apply star_dotted_inv in H; destruct H as [-> (ws & Hws & Hall)]
      end;
    cbn [Re.group Nat.eqb];
    (split; [simpl; auto|]);
    (split; [simpl; auto|]);
    (split; [exists ws; split; [exact Hws | exact Hall]|]);
    (split; [now apply word_string_of_list|]);
    exists (string_of_list_ascii s');
    rewrite !string_of_list_ascii_app; cbn [nulls_text];
    rewrite ?string_app_assoc; reflexivity.
Qed.

End Regex.

Section Words.

Lemma word_string_inv (w : string) :
  word_string w = true ->
  exists d w', w = String d w' /\ Re.word d = true
               /\ forallb Re.word (list_ascii_of_string w') = true.
Proof.
  unfold word_string. destruct w as [|d w']; [discriminate|]. simpl.
  intros H. apply andb_true_iff in H. exists d, w'. now split.
Qed.

Lemma word_chars_exclude (c : ascii) (w : string) :
  Re.word c = false ->
  forallb Re.word (list_ascii_of_string w) = true -> Py.contains c w = false.
Proof.
  intros Hc. induction w as [|d w IH]; simpl; [reflexivity|].
  intros H. apply andb_true_iff in H. destruct H as [Hd Hw].
  rewrite (IH Hw), orb_false_r.
  destruct (Ascii.eqb_spec d c) as [->|]; [congruence | reflexivity].
Qed.

Lemma word_string_no_dot (w : string) :
  word_string w = true -> Py.contains "." w = false.
Proof.
  intros H. destruct (word_string_inv w H) as (d & w' & -> & Hd & Hw).
  apply (word_chars_exclude "." (String d w')); [reflexivity|].
  simpl. now rewrite Hd, Hw.
Qed.

Lemma rstrip_app (c : ascii) (a b : string) :
  Py.rstrip c (a ++ b) =
  match Py.rstrip c b with
  | EmptyString => Py.rstrip c a
  | r => a ++ r
  end.
Proof.
  induction a as [|d a IH].
  - simpl. now destruct (Py.rstrip c b).
  - cbn [append Py.rstrip]. rewrite IH.
    destruct (Py.rstrip c b) as [|e r]; [reflexivity|].
    destruct a; reflexivity.
Qed.

Lemma rstrip_without (c : ascii) (w : string) :
  Py.contains c w = false -> Py.rstrip c w = w.
Proof.
  induction w as [|d w IH]; [reflexivity|]. cbn [Py.contains Py.rstrip].
  intros H. apply orb_false_iff in H. destruct H as [Hd Hw].
  rewrite (IH Hw), Hd. now destruct w.
Qed.

Lemma split_app_sep (sep : ascii) (a b : string) :
  Py.contains sep a = false ->
  Py.split sep (a ++ String sep b) = a :: Py.split sep b.
Proof.
  induction a as [|d a IH]; cbn [append Py.split Py.contains].
  - now rewrite Ascii.eqb_refl.
  - intros H. apply orb_false_iff in H. destruct H as [Hd Ha].
    now rewrite Hd, (IH Ha).
Qed.

Lemma join_words_not_empty (w : string) (ws : list string) :
  word_string w = true -> join "." (w :: ws) <> "".
Proof.
  intros H. destruct (word_string_inv w H) as (d & w' & -> & _).
  destruct ws; discriminate.
Qed.

Lemma rstrip_dotted (w : string) (ws : list string) :
  Forall (fun x => word_string x = true) (w :: ws) ->
  Py.rstrip "." (dotted (w :: ws)) = join "." (w :: ws).
Proof.
  revert w. induction ws as [|w2 ws IH]; intros w Hall;
    inversion Hall as [|? ? Hw Hws]; subst.
  - change (dotted [w]) with (w ++ "."). rewrite rstrip_app.
    change (Py.rstrip "." ".") with "".
    apply rstrip_without. now apply word_string_no_dot.
  - change (dotted (w :: w2 :: ws)) with (w ++ String "." (dotted (w2 :: ws))).
    rewrite rstrip_app.
    cbn [Py.rstrip]. rewrite (IH w2 Hws).
    pose proof (join_words_not_empty w2 ws ltac:(now inversion Hws)) as Hne.
    destruct (join "." (w2 :: ws)) as [|e r] eqn:E; [contradiction|].
    change (join "." (w :: w2 :: ws)) with (w ++ "." ++ join "." (w2 :: ws)).
    now rewrite E.
Qed.

Lemma split_join_words (w : string) (ws : list string) :
  Forall (fun x => word_string x = true) (w :: ws) ->
  Py.split "." (join "." (w :: ws)) = w :: ws.
Proof.
  revert w. induction ws as [|w2 ws IH]; intros w Hall;
    inversion Hall as [|? ? Hw Hws]; subst.
  - apply split_no_sep. now apply word_string_no_dot.
  - change (join "." (w :: w2 :: ws)) with (w ++ String "." (join "." (w2 :: ws))).
    rewrite split_app_sep by now apply word_string_no_dot.
    now rewrite (IH w2 Hws).
Qed.

(** The path of group 3 has one component per word. *)
Lemma schema_joins_dotted (ws : list string) :
  Forall (fun x => word_string x = true) ws -> schema_joins (dotted ws) = ws.
Proof.
  intros Hall. destruct ws as [|w ws]; [reflexivity|].
  assert (word_string w = true) as Hw by now inversion Hall.
  destruct (word_string_inv w Hw) as (d & w' & Hwd & Hd & _).
  unfold schema_joins, Py.strip.
  assert (exists x, dotted (w :: ws) = String d x) as [x Hx].
  { subst w. cbn [dotted append]. eauto. }
  assert (Py.lstrip "." (dotted (w :: ws)) = dotted (w :: ws)) as ->.
  { rewrite Hx. cbn [Py.lstrip].
    destruct (Ascii.eqb_spec d ".") as [->|]; [discriminate | reflexivity]. }
  rewrite (rstrip_dotted w ws Hall), (split_join_words w ws Hall).
  now rewrite Hx.
Qed.

Lemma startswith_minus_word (d : ascii) (x : string) :
  Re.word d = true -> Py.startswith (String d x) "-" = false.
Proof.
  intros Hd. unfold Py.startswith. cbn [String.prefix].
  destruct (ascii_dec "-" d) as [<-|]; [discriminate | reflexivity].
Qed.

Lemma forall2_in_right {A B} (R : A -> B -> Prop) (l1 : list A) (l2 : list B) (y : B) :
  Forall2 R l1 l2 -> In y l2 -> exists x, In x l1 /\ R x y.
Proof.
  induction 1 as [|a b l1 l2 Hab _ IH]; [contradiction|].
  intros [<-|Hin].
  - exists a. split; [now left | exact Hab].
  - destruct (IH Hin) as (x & Hx & Hr). exists x. split; [now right | exact Hr].
Qed.

End Words.

(** X19.  Every entry that the sorting accessor returns comes from a
    segment of the [sort] parameter that begins with: an optional minus
    sign, an optional [nullsfirst] or [nullslast] between brackets, any
    number of words each followed by a dot, and a final word (a word is one
    or more letters, digits or underscores); what follows in the segment is
    not looked at.  The words before the final one are to-one relationships
    followed from the schema of the accessor, one join per word; the final
    word is a plain attribute of the schema reached; the order is [desc]
    exactly when the segment starts with the minus sign; the nulls
    directive is the one between the brackets. *)
Theorem sorting_accepted_segments (registry : nat -> schema) (self_schema : schema)
    (qs : Dict.t string) (items : list sort_item) (item : sort_item) :
  (forall n, Dict.wf (_declared_fields (registry n))) ->
  Dict.wf (_declared_fields self_schema) ->
  sorting qs self_schema registry = Ok items ->
  In item items ->
  exists sort sort_field minus nulls ws schema_field rest sch' a,
    Dict.get "sort" qs = Some sort /\ In sort_field (Py.split "," sort)
    /\ sort_field = minus ++ nulls_text nulls ++ dotted ws ++ schema_field ++ rest
    /\ (minus = "" \/ minus = "-")
    /\ (nulls = None \/ nulls = Some "nullsfirst" \/ nulls = Some "nullslast")
    /\ Forall (fun w => word_string w = true) ws
    /\ word_string schema_field = true
    /\ to_one_path registry self_schema ws sch' (sort_joins item)
    /\ length (sort_joins item) = length ws
    /\ Dict.get schema_field (_declared_fields sch') = Some (Attribute a)
    /\ sort_field_ item = model_name (Attribute a) schema_field
    /\ sort_nulls item = nulls
    /\ (sort_order item = "asc" \/ sort_order item = "desc")
    /\ (sort_order item = "desc" <-> Py.startswith sort_field "-" = true).
Proof.
  intros Hreg Hself Hsort Hin. unfold sorting in Hsort.
  destruct (Dict.get "sort" qs) as [sort|] eqn:Hget;
    [|injection Hsort as <-; contradiction].
  destruct sort as [|c sort]; [injection Hsort as <-; contradiction|].
  apply sorting_from_ok in Hsort. destruct Hsort as (new & -> & Hall).
  cbn [app] in Hin.
  destruct (forall2_in_right _ _ _ _ Hall Hin) as (sort_field & Hseg_in & Hseg).
  unfold sort_segment in Hseg.
  destruct (pattern_match sort_field) as [[[[minus nulls] join_path] schema_field]|]
    eqn:Hmatch; [|discriminate].
  apply (resolve_sort_ok registry Hreg self_schema Hself) in Hseg. cbn in Hseg.
  destruct Hseg as (sch' & model_joins & a & Hpath & Hfield & ->).
  destruct (pattern_match_sound _ _ _ _ _ Hmatch)
    as (Hminus & Hnulls & (ws & -> & Hws) & Hword & rest & Hshape).
  rewrite (schema_joins_dotted ws Hws) in Hpath.
  exists (String c sort), sort_field, minus, nulls, ws, schema_field, rest, sch', a.
  cbn [sort_joins sort_field_ sort_nulls sort_order].
  repeat (split; [solve [auto]|]).
  split.
  { clear - Hpath. induction Hpath; simpl; congruence. }
  repeat (split; [solve [auto]|]).
  split.
  { destruct (String.eqb minus ""); auto. }
  destruct Hminus as [->| ->].
  - cbn [String.eqb]. split; [discriminate|]. intros Hstart. exfalso.
    rewrite Hshape in Hstart. cbn [append] in Hstart.
    destruct Hnulls as [->|[->| ->]].
    + cbn [nulls_text append] in Hstart.
      destruct ws as [|w ws].
      * cbn [dotted append] in Hstart.
        destruct (word_string_inv _ Hword) as (d & w' & -> & Hd & _).
        cbn [append] in Hstart. rewrite (startswith_minus_word d _ Hd) in Hstart.
        discriminate.
      * assert (word_string w = true) as Hw by now inversion Hws.
        destruct (word_string_inv _ Hw) as (d & w' & -> & Hd & _).
        cbn [dotted append] in Hstart.
        rewrite (startswith_minus_word d _ Hd) in Hstart. discriminate.
    + discriminate.
    + discriminate.
  - split; [|reflexivity]. intros _. rewrite Hshape.
    change ("-" ++ nulls_text nulls ++ dotted ws ++ schema_field ++ rest)
      with ("-" ++ (nulls_text nulls ++ dotted ws ++ schema_field ++ rest)).
    apply startswith_app.
Qed.

Lemma sorting_accepted_segments_witness :
  exists sort sort_field minus nulls ws schema_field rest sch' a,
    Dict.get "sort" [("sort", "title,-[nullsfirst]author.email!x")] = Some sort
    /\ In sort_field (Py.split "," sort)
    /\ sort_field = minus ++ nulls_text nulls ++ dotted ws ++ schema_field ++ rest
    /\ (minus = "" \/ minus = "-")
    /\ (nulls = None \/ nulls = Some "nullsfirst" \/ nulls = Some "nullslast")
    /\ Forall (fun w => word_string w = true) ws
    /\ word_string schema_field = true
    /\ to_one_path example_registry article_schema ws sch' ["writer"]
    /\ length ["writer"] = length ws
    /\ Dict.get schema_field (_declared_fields sch') = Some (Attribute a)
    /\ "email_address" = model_name (Attribute a) schema_field
    /\ Some "nullsfirst" = nulls
    /\ ("desc" = "asc" \/ "desc" = "desc")
    /\ ("desc" = "desc" <-> Py.startswith sort_field "-" = true).
Proof.
  exact (sorting_accepted_segments example_registry article_schema
           [("sort", "title,-[nullsfirst]author.email!x")]
           [ {| sort_field_ := "title"; sort_order := "asc"; sort_nulls := None;
                sort_joins := [] |};
             {| sort_field_ := "email_address"; sort_order := "desc";
                sort_nulls := Some "nullsfirst"; sort_joins := ["writer"] |} ]
           {| sort_field_ := "email_address"; sort_order := "desc";
              sort_nulls := Some "nullsfirst"; sort_joins := ["writer"] |}
           example_registry_wf (example_registry_wf 1) eq_refl
           (or_intror (or_introl eq_refl))).
Defined.

(* ================================================================== *)
(** ** The accessors on the managed-parameter view *)

Section OnTheView.

Lemma startswith_shorter (a b key : string) :
  Py.startswith key (a ++ b) = true -> Py.startswith key a = true.
Proof.
  unfold Py.startswith. revert key. induction a as [|c a IH]; intros key.
  - intros _. now destruct key.
  - destruct key as [|d key]; cbn [append String.prefix]; [discriminate|].
    destruct (ascii_dec c d); [apply IH | discriminate].
Qed.

Lemma startswith_refl (key : string) : Py.startswith key key = true.
Proof.
  unfold Py.startswith. induction key as [|c key IH]; cbn [String.prefix];
    [reflexivity|].
  destruct (ascii_dec c c); [exact IH | contradiction].
Qed.

Lemma filter_filter_implied {A} (f g : A -> bool) (l : list A) :
  (forall x, f x = true -> g x = true) ->
  filter f (filter g l) = filter f l.
Proof.
  intros Himp. induction l as [|a l IH]; [reflexivity|]. cbn [filter].
  destruct (g a) eqn:Hg; cbn [filter].
  - now rewrite IH.
  - destruct (f a) eqn:Hf; [|exact IH]. rewrite (Himp a Hf) in Hg. discriminate.
Qed.

Lemma get_filter (f : string * string -> bool) (key : string) (qs : Dict.t string) :
  (forall value, f (key, value) = true) ->
  Dict.get key (filter f qs) = Dict.get key qs.
Proof.
  intros Hkey. induction qs as [|[k v] qs IH]; [reflexivity|]. cbn [filter Dict.get].
  destruct (String.eqb_spec k key) as [->|Hne].
  - rewrite Hkey. cbn [Dict.get]. now rewrite String.eqb_refl.
  - destruct (f (k, v)); cbn [Dict.get]; [|exact IH].
    destruct (String.eqb_spec k key); [contradiction | exact IH].
Qed.

Lemma under_managed (name : string) :
  (exists m rest, In m MANAGED_KEYS /\ name = m ++ rest) ->
  forall kv, under name kv = true -> managed kv = true.
Proof.
  intros (m & rest & Hm & ->) [key value]. unfold under, managed. cbn [fst].
  intros H. apply startswith_shorter in H.
  unfold Py.startswith_any. apply existsb_exists. now exists m.
Qed.

Lemma get_key_values_managed (qs : Dict.t string) (name : string) :
  (exists m rest, In m MANAGED_KEYS /\ name = m ++ rest) ->
  _get_key_values (filter managed qs) name = _get_key_values qs name.
Proof.
  intros Hname. unfold _get_key_values.
  rewrite <- (get_key_values_from_filter name (filter managed qs)).
  rewrite (filter_filter_implied _ _ _ (under_managed name Hname)).
  apply get_key_values_from_filter.
Qed.

Lemma get_managed (qs : Dict.t string) (key : string) :
  In key MANAGED_KEYS -> Dict.get key (filter managed qs) = Dict.get key qs.
Proof.
  intros Hkey. apply get_filter. intros value. unfold managed. cbn [fst].
  unfold Py.startswith_any. apply existsb_exists. exists key.
  split; [exact Hkey | apply startswith_refl].
Qed.

End OnTheView.

(** X20.  The accessors give the same result, or the same error, on the
    managed-parameter view as on the mapping itself: dropping the keys that
    start with no managed name changes nothing for pagination, fields,
    filters, sorting and include. *)
Theorem accessors_on_view (qs view : Dict.t string) :
  querystring qs = Ok view ->
  (forall cfg, pagination view cfg = pagination qs cfg)
  /\ (forall get_schema_from_type,
        fields view get_schema_from_type = fields qs get_schema_from_type)
  /\ (forall json_loads, filters view json_loads = filters qs json_loads)
  /\ (forall self_schema registry,
        sorting view self_schema registry = sorting qs self_schema registry)
  /\ (forall cfg, include view cfg = include qs cfg).
Proof.
  intros Hq. rewrite querystring_closed in Hq.
  assert (view = qs \/ view = filter managed qs) as [->| ->].
  { destruct (forallb managed qs); [injection Hq as <-; now left|].
    destruct (_get_key_values qs "filter[") as [r|e]; [|discriminate].
    injection Hq as <-. destruct (Dict.nonempty r); auto. }
  - repeat split; reflexivity.
  - assert (_get_key_values (filter managed qs) "page" = _get_key_values qs "page")
      as Hpage.
    { apply get_key_values_managed. exists "page", "". simpl. auto. }
    assert (_get_key_values (filter managed qs) "fields" = _get_key_values qs "fields")
      as Hfields.
    { apply get_key_values_managed. exists "fields", "". simpl. auto. }
    assert (_get_key_values (filter managed qs) "filter["
            = _get_key_values qs "filter[") as Hfilter.
    { apply get_key_values_managed. exists "filter", "[". simpl. auto. }
    repeat split.
    + intros cfg. unfold pagination. now rewrite Hpage.
    + intros g. unfold fields. now rewrite Hfields.
    + intros j. unfold filters. rewrite Hfilter, get_managed; [reflexivity|].
      simpl. auto.
    + intros s r. unfold sorting. rewrite get_managed; [reflexivity|].
      simpl. auto.
    + intros cfg. unfold include. rewrite get_managed; [reflexivity|].
      simpl. intuition.
Qed.

Lemma accessors_on_view_witness :
  (forall cfg, pagination [("sort", "name"); ("page[size]", "10")] cfg
               = pagination [("sort", "name"); ("utm_source", "x"); ("page[size]", "10")]
                   cfg)
  /\ (forall get_schema_from_type,
        fields [("sort", "name"); ("page[size]", "10")] get_schema_from_type
        = fields [("sort", "name"); ("utm_source", "x"); ("page[size]", "10")]
            get_schema_from_type)
  /\ (forall json_loads,
        filters [("sort", "name"); ("page[size]", "10")] json_loads
        = filters [("sort", "name"); ("utm_source", "x"); ("page[size]", "10")]
            json_loads)
  /\ (forall self_schema registry,
        sorting [("sort", "name"); ("page[size]", "10")] self_schema registry
        = sorting [("sort", "name"); ("utm_source", "x"); ("page[size]", "10")]
            self_schema registry)
  /\ (forall cfg, include [("sort", "name"); ("page[size]", "10")] cfg
                  = include [("sort", "name"); ("utm_source", "x"); ("page[size]", "10")]
                      cfg).
Proof.
  exact (accessors_on_view
           [("sort", "name"); ("utm_source", "x"); ("page[size]", "10")]
           [("sort", "name"); ("page[size]", "10")] eq_refl).
Defined.

(* ================================================================== *)
(** ** The integer conversion at its edges *)

(** The information separator (code 28) is no whitespace for [int]: a size
    that starts with it is refused, and the accessor answers with the
    BadRequest of [page[size]]. *)
Example int_separator_not_stripped :
  Py.int (String "028" "10") = None
  /\ Py.int (String "009" "10 ") = Some 10%Z
  /\ pagination [("page[size]", String "028" "10")] default_config
     = Raise (BadRequest "Parse error" "page[size]").
Proof. repeat split; reflexivity. Qed.

(** A text of 4300 digits is converted, one of 4301 digits is refused. *)
Example int_digit_limit :
  (match Py.int (digits_text 4300) with Some _ => true | None => false end) = true
  /\ Py.int (digits_text 4301) = None.
Proof. split; vm_compute; reflexivity. Qed.

Example int_documented :
  Py.int "25" = Some 25%Z /\ Py.int " -7 " = Some (-7)%Z
  /\ Py.int "1_000" = Some 1000%Z /\ Py.int "+5" = Some 5%Z
  /\ Py.int "007" = Some 7%Z
  /\ Py.int "" = None /\ Py.int "1__0" = None /\ Py.int "_1" = None
  /\ Py.int "1_" = None /\ Py.int "abc" = None /\ Py.int "+" = None
  /\ Py.int "- 1" = None /\ Py.int "1 2" = None.
Proof. repeat split; reflexivity. Qed.
